(** * Chatin: the function registry, the dispatcher and the completion loop

    A shallow embedding of [chatin.ts] (class [ChatFunctionsController] and
    the two decorators [ChatFunction] and [ChatParameter]), followed by the
    properties of the specification that concern it.

    Conventions of the embedding.
    - A JavaScript [Map] is a [gmap]; its iteration order is not modelled.
    - An array is a [list]; [enabledFunctions] is the array the class keeps.
    - A thrown [Error] is the [Err] case of [result]; [await] is transparent
      (one logical thread of control).
    - Loops and recursions without a bound in the source take a [fuel]
      argument; [None] means that the fuel ran out.
    - A string is a [string]; its characters stand for UTF-16 code units. *)

From stdpp Require Import base gmap strings list fin_maps pretty.

Local Open Scope string_scope.
Local Open Scope Z_scope.
Local Open Scope nat_scope.
Local Open Scope list_scope.

(** ** Values, errors and results *)

(** The values [JSON.parse] produces. Numbers are never inspected by the
    controller, an integer payload is enough to tell them apart. *)
Unset Elimination Schemes.
Inductive JsValue : Type :=
  | JNull
  | JBool (b : bool)
  | JNumber (n : Z)
  | JString (s : string)
  | JArray (items : list JsValue)
  | JObject (props : list (string * JsValue)).
Set Elimination Schemes.

(** [new Error(message)]; the only field the controller reads is [message]
    (the catch clause of [getFunctionMessage] casts with [e as Error]). *)
Record Error : Type := mkError { message : string }.

Inductive result (A : Type) : Type :=
  | Ok (a : A)
  | Err (e : Error).
Arguments Ok {A} a.
Arguments Err {A} e.

#[global] Instance result_ret : MRet result := fun A a => Ok a.
#[global] Instance result_bind : MBind result := fun A B f r =>
  match r with
  | Ok a => f a
  | Err e => Err e
  end.

Definition throw {A : Type} (msg : string) : result A := Err (mkError msg).

(** The double quote character, for the messages that contain one. *)
Definition dquote : string := String (Ascii.ascii_of_nat 34) EmptyString.

(** [array.join(sep)] on an array of strings. *)
Definition join (sep : string) (l : list string) : string := String.concat sep l.

(** [array.indexOf(x)]: the first index of [x], or [-1]. *)
Fixpoint indexOf (l : list string) (x : string) : Z :=
  match l with
  | [] => (-1)%Z
  | y :: rest =>
      if decide (y = x) then 0%Z
      else let i := indexOf rest x in
           if decide (i = (-1)%Z) then (-1)%Z else (i + 1)%Z
  end.

(** [array.includes(x)]. *)
Definition includes (l : list string) (x : string) : bool := bool_decide (x ∈ l).

(** [array.splice(index, 1)] for an index that [indexOf] returned. *)
Definition splice1 (l : list string) (index : Z) : list string :=
  delete (Z.to_nat index) l.

(** [arr[pos] = v] on a JavaScript array: inside the array the slot is
    overwritten, beyond its end the array grows and the slots in between are
    holes, which read as [undefined] ([None]). *)
Definition array_set {A : Type} (arr : list (option A)) (pos : nat) (v : A)
  : list (option A) :=
  if decide (pos < length arr) then <[pos := Some v]> arr
  else arr ++ replicate (pos - length arr) None ++ [Some v].

(** The decimal index keys ["0"], ["1"], ... of an array or a string. *)
Definition index_keys (n : nat) : list string := pretty <$> seq 0 n.

Fixpoint chars (s : string) : list JsValue :=
  match s with
  | EmptyString => []
  | String c rest => JString (String c EmptyString) :: chars rest
  end.

Definition nullToObject : string := "Cannot convert undefined or null to object".

(** [Object.getOwnPropertyNames(v)]. *)
Definition getOwnPropertyNames (v : JsValue) : result (list string) :=
  match v with
  | JNull => throw nullToObject
  | JBool _ | JNumber _ => Ok []
  | JString s => Ok (index_keys (String.length s) ++ ["length"])
  | JArray items => Ok (index_keys (length items) ++ ["length"])
  | JObject props => Ok (props.*1)
  end.

(** [Object.entries(v)]. *)
Definition entries (v : JsValue) : result (list (string * JsValue)) :=
  match v with
  | JNull => throw nullToObject
  | JBool _ | JNumber _ => Ok []
  | JString s => Ok (zip (index_keys (String.length s)) (chars s))
  | JArray items => Ok (zip (index_keys (length items)) items)
  | JObject props => Ok props
  end.

(** ** Decorators and their metadata *)

Inductive ParamType : Type := type_string | type_object.

(** The value stored under the metadata key [chat_function]. *)
Record FunctionMetadata : Type := mkFunctionMetadata {
  fm_name : string;
  fm_description : string
}.

(** The argument of the [ChatParameter] decorator. *)
Record ParameterDecl : Type := mkParameterDecl {
  pd_description : string;
  pd_type : ParamType;
  pd_required : option bool
}.

(** The value stored under the metadata key [chat_function_<i>]. *)
Record ParameterMetadata : Type := mkParameterMetadata {
  pm_description : string;
  pm_type : ParamType;
  pm_required : option bool;
  pm_name : string
}.

(** [if (metadata.required)]: an absent flag is falsy. *)
Definition truthy_flag (o : option bool) : bool :=
  match o with
  | Some b => b
  | None => false
  end.

(** What a registered callable does with its positional arguments: it returns
    a string or throws. *)
Definition Callable : Type := list (option JsValue) → result string.

(** A plugin instance as [registerFunctions] sees it: the own property names
    of its prototype with the methods they hold, and the reflection metadata
    attached to those properties, [chat_function] in [functionMeta] and
    [chat_function_<i>] in [parameterMeta] at key [(property, i)]. *)
Record Plugin : Type := mkPlugin {
  prototype : list (string * Callable);
  functionMeta : gmap string FunctionMetadata;
  parameterMeta : gmap (string * nat) ParameterMetadata
}.

(** [@ChatFunction(data)] on the method [propertyKey]:
    [Reflect.defineMetadata('chat_function', data, target, propertyKey)]. *)
Definition ChatFunction (data : FunctionMetadata) (propertyKey : string)
    (target : Plugin) : Plugin :=
  {| prototype := prototype target;
     functionMeta := <[propertyKey := data]> (functionMeta target);
     parameterMeta := parameterMeta target |}.

(** [@ChatParameter(data)] on parameter [parameterIndex] of the method
    [propertyKey]: the stored value is [{...data, name: propertyKey}]. *)
Definition ChatParameter (data : ParameterDecl) (propertyKey : string)
    (parameterIndex : nat) (target : Plugin) : Plugin :=
  {| prototype := prototype target;
     functionMeta := functionMeta target;
     parameterMeta :=
       <[(propertyKey, parameterIndex) :=
           {| pm_description := pd_description data;
              pm_type := pd_type data;
              pm_required := pd_required data;
              pm_name := propertyKey |}]> (parameterMeta target) |}.

(** ** The controller *)

(** [ChatFunctionData]. *)
Record ChatFunctionData : Type := mkChatFunctionData {
  description : string;
  parameterData : list ParameterMetadata;
  parameterRequired : list string;
  parameterIndex : gmap string nat;
  func : Callable
}.

Record Usage : Type := mkUsage {
  prompt_tokens : nat;
  completion_tokens : nat;
  total_tokens : nat
}.

Definition zeroUsage : Usage :=
  {| prompt_tokens := 0; completion_tokens := 0; total_tokens := 0 |}.

Inductive Role : Type := role_system | role_user | role_assistant | role_function.

(** [function_call] of a message; the source reads both fields with [!]. *)
Record FunctionCall : Type := mkFunctionCall {
  fc_name : string;
  fc_arguments : string
}.

(** [ChatCompletionRequestMessage]. *)
Record Message : Type := mkMessage {
  role : Role;
  content : option string;
  name : option string;
  function_call : option FunctionCall
}.

Record GetFunctionMessageOptions : Type := mkGetFunctionMessageOptions {
  requestMaxTokens : nat
}.

Record Controller : Type := mkController {
  registeredFunctionsMap : gmap string ChatFunctionData;
  enabledFunctions : list string;
  usage : Usage;
  messages : list Message;
  options_model : string;
  defaultFunctionMessageOptions : GetFunctionMessageOptions
}.

(** [new ChatFunctionsController(openai, options)]. *)
Definition newController (model : option string) : Controller :=
  {| registeredFunctionsMap := ∅;
     enabledFunctions := [];
     usage := zeroUsage;
     messages := [];
     options_model := default "gpt-3.5-turbo-0613" model;
     defaultFunctionMessageOptions := {| requestMaxTokens := 2048 |} |}.

Definition set_registered (c : Controller) (m : gmap string ChatFunctionData)
  : Controller :=
  {| registeredFunctionsMap := m;
     enabledFunctions := enabledFunctions c;
     usage := usage c;
     messages := messages c;
     options_model := options_model c;
     defaultFunctionMessageOptions := defaultFunctionMessageOptions c |}.

Definition set_enabled (c : Controller) (l : list string) : Controller :=
  {| registeredFunctionsMap := registeredFunctionsMap c;
     enabledFunctions := l;
     usage := usage c;
     messages := messages c;
     options_model := options_model c;
     defaultFunctionMessageOptions := defaultFunctionMessageOptions c |}.

Definition set_usage (c : Controller) (u : Usage) : Controller :=
  {| registeredFunctionsMap := registeredFunctionsMap c;
     enabledFunctions := enabledFunctions c;
     usage := u;
     messages := messages c;
     options_model := options_model c;
     defaultFunctionMessageOptions := defaultFunctionMessageOptions c |}.

Definition set_messages (c : Controller) (l : list Message) : Controller :=
  {| registeredFunctionsMap := registeredFunctionsMap c;
     enabledFunctions := enabledFunctions c;
     usage := usage c;
     messages := l;
     options_model := options_model c;
     defaultFunctionMessageOptions := defaultFunctionMessageOptions c |}.

(** ** Registration *)

Record RegisterFunctionsOptions : Type := mkRegisterFunctionsOptions {
  namespace : option string;
  enable : list string
}.

(** [opts.namespace ? `${opts.namespace}.${n}` : n]; the empty namespace is
    falsy as well as the absent one. *)
Definition namespaced (ns : option string) (n : string) : string :=
  match ns with
  | Some s => if decide (s = EmptyString) then n else s +:+ "." +:+ n
  | None => n
  end.

(** The [while (Reflect.hasMetadata(`chat_function_${i}`, plugin, name))]
    scan from position [i]. The metadata map is finite, so its size bounds
    the number of iterations. *)
Fixpoint scanParameters (meta : gmap (string * nat) ParameterMetadata)
    (propertyKey : string) (fuel i : nat) : list ParameterMetadata :=
  match fuel with
  | 0 => []
  | S fuel' =>
      match meta !! (propertyKey, i) with
      | Some md => md :: scanParameters meta propertyKey fuel' (S i)
      | None => []
      end
  end.

(** The three structures the scan fills, from the scanned entries taken in
    order: [parameterData.push(metadata)], [parameterRequired.push] for the
    required ones, [parameterIndex.set(metadata.name, i)]. *)
Fixpoint indexFrom (i : nat) (scanned : list ParameterMetadata)
    (acc : gmap string nat) : gmap string nat :=
  match scanned with
  | [] => acc
  | md :: rest => indexFrom (S i) rest (<[pm_name md := i]> acc)
  end.

Definition requiredOf (scanned : list ParameterMetadata) : list string :=
  pm_name <$> filter (λ md, truthy_flag (pm_required md) = true) scanned.

Definition describe (plugin : Plugin) (propertyKey : string) (method : Callable)
    (metadata : FunctionMetadata) : ChatFunctionData :=
  let scanned :=
    scanParameters (parameterMeta plugin) propertyKey
                   (size (parameterMeta plugin)) 0 in
  {| description := fm_description metadata;
     parameterData := scanned;
     parameterRequired := requiredOf scanned;
     parameterIndex := indexFrom 0 scanned ∅;
     func := method |}.

(** The [filter(...).forEach(...)] over the prototype's property names. *)
Fixpoint registerEach (plugin : Plugin) (ns : option string)
    (props : list (string * Callable))
    (registry : gmap string ChatFunctionData) : gmap string ChatFunctionData :=
  match props with
  | [] => registry
  | (propertyKey, method) :: rest =>
      match functionMeta plugin !! propertyKey with
      | Some metadata =>
          registerEach plugin ns rest
            (<[namespaced ns (fm_name metadata) :=
                 describe plugin propertyKey method metadata]> registry)
      | None => registerEach plugin ns rest registry
      end
  end.

Definition registerFunctions (c : Controller) (plugin : Plugin)
    (opts : RegisterFunctionsOptions) : Controller :=
  let c1 := set_enabled c
              (enabledFunctions c ++ (namespaced (namespace opts) <$> enable opts)) in
  set_registered c1
    (registerEach plugin (namespace opts) (prototype plugin)
                  (registeredFunctionsMap c1)).

(** ** The schema list *)

Record PropertySchema : Type := mkPropertySchema {
  ps_type : ParamType;
  ps_description : string
}.

(** [ChatCompletionFunctions] as [getRegisteredFunctions] builds it;
    [parameters.type] is the constant ['object']. *)
Record ChatCompletionFunctions : Type := mkChatCompletionFunctions {
  fn_name : string;
  fn_description : string;
  fn_properties : gmap string PropertySchema;
  fn_required : list string
}.

Definition schemaOf (entry : string * ChatFunctionData) : ChatCompletionFunctions :=
  let '(n, data) := entry in
  {| fn_name := n;
     fn_description := description data;
     fn_properties :=
       foldl (λ acc cur,
                <[pm_name cur := {| ps_type := pm_type cur;
                                    ps_description := pm_description cur |}]> acc)
             ∅ (parameterData data);
     fn_required :=
       pm_name <$> filter (λ p, truthy_flag (pm_required p) = true)
                          (parameterData data) |}.

Definition getRegisteredFunctions (c : Controller) : list ChatCompletionFunctions :=
  filter (λ f, includes (enabledFunctions c) (fn_name f) = true)
         (schemaOf <$> map_to_list (registeredFunctionsMap c)).

(** ** Enabling and disabling *)

Definition enableFunction (c : Controller) (n : string) : Controller :=
  if decide (indexOf (enabledFunctions c) n ≠ (-1)%Z)
  then set_enabled c (enabledFunctions c ++ [n])
  else c.

Definition disableFunction (c : Controller) (n : string) : Controller :=
  let index := indexOf (enabledFunctions c) n in
  if decide (index ≠ (-1)%Z)
  then set_enabled c (splice1 (enabledFunctions c) index)
  else c.

Definition enableFunctions (c : Controller) (names : list string) : Controller :=
  foldl enableFunction c names.

Definition disableFunctions (c : Controller) (names : list string) : Controller :=
  foldl disableFunction c names.

(** ** The conversation *)

Definition addMessage (c : Controller) (m : Message) : Controller :=
  set_usage (set_messages c (messages c ++ [m])) zeroUsage.

Definition addSystemMessage (c : Controller) (text : string) : Controller :=
  addMessage c {| role := role_system; content := Some text;
                  name := None; function_call := None |}.

Definition clearMessages (c : Controller) : Controller :=
  set_usage (set_messages c []) zeroUsage.

(** ** The completion service and its options *)

(** What the controller reads of a completion response:
    [data.choices[0].message] and [data.usage]. *)
Record Response : Type := mkResponse {
  choice_message : option Message;
  response_usage : option Usage
}.

Record GetCompletionOptions : Type := mkGetCompletionOptions {
  model : string;
  callFunctions : bool
}.

(** [Partial<GetCompletionOptions>]. *)
Record PartialGetCompletionOptions : Type := mkPartialGetCompletionOptions {
  partial_model : option string;
  partial_callFunctions : option bool
}.

Section External.

(** The collaborators that are not part of the repository.
    - [JSON_parse] and [JSON_stringify] are the JavaScript built-ins; a parse
      failure is the [SyntaxError] the engine throws, and a parsed object
      lists its properties in JavaScript's own-property order without
      repetition.
    - [isWithinTokenLimit] is the function of that name of the package
      gpt-tokenizer, of type [false | number]: [false] ([None]) when the text
      has more tokens than the limit, and the number of tokens otherwise.
    - [createChatCompletion] is the completion service, taken as a function
      of the request (model, transcript, schemas); a transport failure is an
      [Err]. *)
Variable JSON_parse : string → result JsValue.
Variable JSON_stringify : JsValue → string.
Variable isWithinTokenLimit : string → nat → option nat.
Variable createChatCompletion :
  string → list Message → list ChatCompletionFunctions → result Response.

(** *** The dispatcher *)

(** [required.every(r => Object.getOwnPropertyNames(parsedArgs).includes(r))];
    the callback is only run while the array has elements left. *)
Fixpoint everyRequired (required : list string) (parsedArgs : JsValue)
  : result bool :=
  match required with
  | [] => Ok true
  | r :: rest =>
      names ← getOwnPropertyNames parsedArgs;
      if includes names r then everyRequired rest parsedArgs else Ok false
  end.

(** The [for (const [key, value] of Object.entries(parsedArgs))] loop. *)
Fixpoint placeArguments (index : gmap string nat)
    (props : list (string * JsValue)) (argsArray : list (option JsValue))
  : result (list (option JsValue)) :=
  match props with
  | [] => Ok argsArray
  | (key, value) :: rest =>
      match index !! key with
      | None => throw ("Unknown parameter " +:+ key)
      | Some position =>
          placeArguments index rest (array_set argsArray position value)
      end
  end.

Definition missingRequiredMessage (required names : list string) : string :=
  "Missing required parameters (needed " +:+ dquote +:+ join ", " required
    +:+ dquote +:+ ", got " +:+ join ", " names +:+ ")".

Definition handleFunctionCall (c : Controller) (name args : string)
  : result string :=
  match registeredFunctionsMap c !! name with
  | None => throw ("Function " +:+ name +:+ " not found")
  | Some funcData =>
      parsedArgs ← JSON_parse args;
      all ← everyRequired (parameterRequired funcData) parsedArgs;
      if negb all then
        names ← getOwnPropertyNames parsedArgs;
        throw (missingRequiredMessage (parameterRequired funcData) names)
      else
        props ← entries parsedArgs;
        argsArray ← placeArguments (parameterIndex funcData) props [];
        func funcData argsArray
  end.

(** *** The truncation loop and the function message *)

(** [!r] for [r : false | number]: [false] and [0] are falsy. *)
Definition js_not (r : option nat) : bool :=
  match r with
  | None => true
  | Some 0 => true
  | Some (S _) => false
  end.

(** [text.substring(0, n)]. *)
Definition substring0 (n : nat) (text : string) : string := String.substring 0 n text.

(** The body of the truncation loop: a text longer than four characters per
    token of the budget is cut to that length, any other text loses its last
    four characters. [substring] reads a negative end as [0], which is what
    the truncated subtraction gives. *)
Definition truncateStep (truncatedResult : string) (requestMaxTokens : nat)
  : string :=
  if decide (4 * requestMaxTokens < String.length truncatedResult) then
    substring0 (4 * requestMaxTokens) truncatedResult
  else
    substring0 (String.length truncatedResult - 4) truncatedResult.

(** The [while (!isWithinTokenLimit(truncatedResult, requestMaxTokens))] loop
    of [getFunctionMessage]. *)
Fixpoint truncateResult (fuel : nat) (truncatedResult : string)
    (requestMaxTokens : nat) : option string :=
  match fuel with
  | 0 => None
  | S fuel' =>
      if js_not (isWithinTokenLimit truncatedResult requestMaxTokens) then
        truncateResult fuel' (truncateStep truncatedResult requestMaxTokens)
                       requestMaxTokens
      else Some truncatedResult
  end.

Definition functionMessage (name text : string) : Message :=
  {| role := role_function; name := Some name; content := Some text;
     function_call := None |}.

(** [JSON.stringify({error: message})]. *)
Definition errorContent (e : Error) : string :=
  JSON_stringify (JObject [("error", JString (message e))]).

(** [{...this.defaultFunctionMessageOptions, ...options}], where [options]
    is the one field of [Partial<GetFunctionMessageOptions>]. *)
Definition mergeOptions (c : Controller) (options : option nat)
  : GetFunctionMessageOptions :=
  {| requestMaxTokens :=
       default (requestMaxTokens (defaultFunctionMessageOptions c)) options |}.

Definition getFunctionMessage (fuel : nat) (c : Controller)
    (name args : string) (options : option nat) : option Message :=
  let opts := mergeOptions c options in
  match handleFunctionCall c name args with
  | Ok result =>
      match truncateResult fuel result (requestMaxTokens opts) with
      | Some truncatedResult => Some (functionMessage name truncatedResult)
      | None => None
      end
  | Err e => Some (functionMessage name (errorContent e))
  end.

Definition getFunctionMessageFromMessage (fuel : nat) (c : Controller)
    (message : Message) (options : option nat) : option (result Message) :=
  match function_call message with
  | None => Some (throw "Message does not have a function call")
  | Some call =>
      Ok <$> getFunctionMessage fuel c (fc_name call) (fc_arguments call) options
  end.

(** *** The completion loop *)

(** [if (response.data.usage) this.usage = response.data.usage]. *)
Definition recordUsage (c : Controller) (response : Response) : Controller :=
  match response_usage response with
  | Some u => set_usage c u
  | None => c
  end.

(** [this.messages.push(message)], as the loop does it. *)
Definition pushMessage (c : Controller) (m : Message) : Controller :=
  set_messages c (messages c ++ [m]).

(** The body of [getNextCompletion] once [opt] is built; the recursive call
    passes [opt] on, which the merge with the defaults leaves as it is. *)
Fixpoint nextCompletion (fuel : nat) (c : Controller)
    (opt : GetCompletionOptions) : option (Controller * result Response) :=
  match fuel with
  | 0 => None
  | S fuel' =>
      match createChatCompletion (model opt) (messages c)
                                 (getRegisteredFunctions c) with
      | Err e => Some (c, Err e)
      | Ok response =>
          match (if callFunctions opt
                 then choice_message response ≫= function_call
                 else None) with
          | Some call =>
              match getFunctionMessage fuel' c (fc_name call)
                                       (fc_arguments call) None with
              | None => None
              | Some message =>
                  match nextCompletion fuel' (pushMessage c message) opt with
                  | None => None
                  | Some (c', Err e) => Some (c', Err e)
                  | Some (c', Ok response') =>
                      Some (recordUsage c' response', Ok response')
                  end
              end
          | None => Some (recordUsage c response, Ok response)
          end
      end
  end.

Definition getNextCompletion (fuel : nat) (c : Controller)
    (options : PartialGetCompletionOptions)
  : option (Controller * result Response) :=
  nextCompletion fuel c
    {| model := default (options_model c) (partial_model options);
       callFunctions := default false (partial_callFunctions options) |}.

Definition getCompletionWithMessage (fuel : nat) (c : Controller)
    (message : Message) (options : PartialGetCompletionOptions)
  : option (Controller * result Response) :=
  getNextCompletion fuel (addMessage c message) options.

End External.

(** ** Stand-ins and example data

    Closed instances of the collaborators and of a few plugins, used to
    evaluate the controller on concrete inputs. *)

(** A parser given by a table of the texts it accepts. *)
Definition tableParse (table : list (string * JsValue)) (text : string)
  : result JsValue :=
  match list_find (λ entry, entry.1 = text) table with
  | Some (_, (_, v)) => Ok v
  | None => throw "Unexpected end of JSON input"
  end.

(** The text of a JSON object, from its keys and the texts of its values. *)
Definition jsonText (fields : list (string * string)) : string :=
  "{" +:+ join "," ((λ field, dquote +:+ field.1 +:+ dquote +:+ ":" +:+ field.2)
                      <$> fields) +:+ "}".

Definition exampleParse : string → result JsValue :=
  tableParse
    [(jsonText [], JObject []);
     (jsonText [("a", "1")], JObject [("a", JNumber 1)]);
     (jsonText [("b", "2"); ("a", "1")],
      JObject [("b", JNumber 2); ("a", JNumber 1)]);
     (jsonText [("a", "1"); ("d", "4"); ("b", "2")],
      JObject [("a", JNumber 1); ("d", JNumber 4); ("b", JNumber 2)]);
     (jsonText [("c", "3"); ("a", "1"); ("b", "2")],
      JObject [("c", JNumber 3); ("a", JNumber 1); ("b", JNumber 2)]);
     ("null", JNull)].

(** [JSON.stringify] on the one shape the controller passes to it. *)
Definition exampleStringify (v : JsValue) : string :=
  match v with
  | JObject [(key, JString text)] =>
      "{" +:+ dquote +:+ key +:+ dquote +:+ ":" +:+ dquote +:+ text +:+ dquote +:+ "}"
  | _ => "null"
  end.

(** A token check that counts one token per character. Like every encoder it
    finds no token in the empty text, for which it answers the count [0]. *)
Definition charTokens (text : string) (tokenLimit : nat) : option nat :=
  let count := String.length text in
  if decide (tokenLimit < count) then None else Some count.

(** The example plugin of the repository: [dateTime] is decorated with
    [@ChatFunction({name: 'date_time', ...})], [chatFetch] with
    [@ChatFunction({name: 'fetch', ...})] and one [@ChatParameter]. The clock
    and the network are replaced by constant answers. *)
Definition dateTime : Callable := λ _, Ok "Tue Nov 03 2026 09:00:00 GMT+0000".
Definition chatFetch : Callable := λ _, Ok "<html></html>".
Definition noop : Callable := λ _, Ok "undefined".

Definition SystemPlugin : Plugin :=
  ChatFunction {| fm_name := "date_time";
                  fm_description := "Get the current date and time." |}
               "dateTime"
    (ChatFunction {| fm_name := "fetch";
                     fm_description := "Fetch a URL and return raw text" |}
                  "chatFetch"
       (ChatParameter {| pd_description := "The URL to fetch";
                         pd_type := type_string;
                         pd_required := Some true |}
                      "chatFetch" 0
          {| prototype := [("constructor", noop); ("dateTime", dateTime);
                           ("chatFetch", chatFetch)];
             functionMeta := ∅;
             parameterMeta := ∅ |})).

(** A plugin whose method [addNumbers(x, y)] has both parameters decorated,
    the first one required:
    [@ChatFunction({name: 'add', ...}) addNumbers(@ChatParameter({...,
    required: true}) x, @ChatParameter({...}) y)]. *)
Definition addNumbers : Callable := λ _, Ok "3".

Definition AdderPlugin : Plugin :=
  ChatFunction {| fm_name := "add"; fm_description := "Add two numbers" |}
               "addNumbers"
    (ChatParameter {| pd_description := "The first number";
                      pd_type := type_string;
                      pd_required := Some true |}
                   "addNumbers" 0
       (ChatParameter {| pd_description := "The second number";
                         pd_type := type_string;
                         pd_required := None |}
                      "addNumbers" 1
          {| prototype := [("constructor", noop); ("addNumbers", addNumbers)];
             functionMeta := ∅;
             parameterMeta := ∅ |})).

(** A plugin whose metadata is written with [Reflect.defineMetadata] directly,
    so that the three parameters of [f] carry the names [a], [b] and [c];
    [f] answers with the arguments it received, in their order. *)
Definition renderArgument (arg : option JsValue) : string :=
  match arg with
  | None => "undefined"
  | Some (JNumber n) => pretty n
  | Some (JString text) => text
  | Some _ => "object"
  end.

Definition echoArguments : Callable :=
  λ args, Ok (join "," (renderArgument <$> args)).

Definition named (n : string) (required : option bool) : ParameterMetadata :=
  {| pm_description := "parameter " +:+ n; pm_type := type_string;
     pm_required := required; pm_name := n |}.

Definition AbcPlugin : Plugin :=
  {| prototype := [("constructor", noop); ("f", echoArguments)];
     functionMeta := {[ "f" := {| fm_name := "f"; fm_description := "example" |} ]};
     parameterMeta := {[ ("f", 0) := named "a" (Some true);
                         ("f", 1) := named "b" (Some true);
                         ("f", 2) := named "c" None ]} |}.

(** A plugin with a method that returns the empty string. *)
Definition silent : Callable := λ _, Ok EmptyString.

Definition SilentPlugin : Plugin :=
  ChatFunction {| fm_name := "silent"; fm_description := "Says nothing" |}
               "silent"
    {| prototype := [("constructor", noop); ("silent", silent)];
       functionMeta := ∅;
       parameterMeta := ∅ |}.

Definition enabling (names : list string) : RegisterFunctionsOptions :=
  {| namespace := None; enable := names |}.

(** A completion service that asks for [date_time] until the transcript ends
    with a function message and then answers with a final text; its responses
    carry no usage counters. *)
Definition scriptedService (_ : string) (transcript : list Message)
    (_ : list ChatCompletionFunctions) : result Response :=
  match last transcript with
  | Some {| role := role_function |} =>
      Ok {| choice_message :=
              Some {| role := role_assistant;
                      content := Some "The time is now known.";
                      name := None; function_call := None |};
            response_usage := None |}
  | _ =>
      Ok {| choice_message :=
              Some {| role := role_assistant; content := None; name := None;
                      function_call :=
                        Some {| fc_name := "date_time"; fc_arguments := "{}" |} |};
            response_usage := None |}
  end.

(** A controller in the middle of a conversation: one user message, and the
    usage counters of the completion that answered it. *)
Definition midConversation : Controller :=
  set_usage
    (set_messages
       (registerFunctions (newController None) SystemPlugin
                          (enabling ["date_time"]))
       [{| role := role_user; content := Some "What time is it?";
           name := None; function_call := None |}])
    {| prompt_tokens := 10; completion_tokens := 5; total_tokens := 15 |}.

(** The controllers of the examples. *)
Definition systemController : Controller :=
  registerFunctions (newController None) SystemPlugin (enabling ["date_time"]).

Definition abcController : Controller :=
  registerFunctions (newController None) AbcPlugin (enabling ["f"]).

Definition silentController : Controller :=
  registerFunctions (newController None) SilentPlugin (enabling ["silent"]).

(** [registerFunctions(plugin, {enable: [f]})], twice. *)
Definition registerTwice (c : Controller) (plugin : Plugin) (f : string)
  : Controller :=
  registerFunctions (registerFunctions c plugin (enabling [f])) plugin
                    (enabling [f]).

(** Two more completion services: one that asks for [date_time] whatever
    the transcript, and one whose transport fails. *)
Definition insistentService (_ : string) (_ : list Message)
    (_ : list ChatCompletionFunctions) : result Response :=
  Ok {| choice_message :=
          Some {| role := role_assistant; content := None; name := None;
                  function_call :=
                    Some {| fc_name := "date_time";
                            fc_arguments := jsonText [] |} |};
        response_usage :=
          Some {| prompt_tokens := 7; completion_tokens := 3;
                  total_tokens := 10 |} |}.

Definition failingService (_ : string) (_ : list Message)
    (_ : list ChatCompletionFunctions) : result Response :=
  throw "Request failed with status code 401".

(** * Properties *)

(** ** Arrays *)

Lemma indexOf_lower (l : list string) (x : string) : (-1 ≤ indexOf l x)%Z.
Proof.
  induction l as [|y l IH]; simpl; [lia|].
  repeat case_decide; lia.
Qed.

Lemma indexOf_absent (l : list string) (x : string) :
  indexOf l x = (-1)%Z ↔ x ∉ l.
Proof.
  induction l as [|y l IH]; simpl.
  - split; [intros _; apply not_elem_of_nil | done].
  - pose proof (indexOf_lower l x) as Hlow.
    rewrite not_elem_of_cons.
    case_decide as Hy.
    + subst. split; [lia | intros [Hne _]; by destruct Hne].
    + case_decide as Hi.
      * split; [intros _; split; [congruence | by apply IH] | done].
      * split; [lia | intros [_ Hnot]; by apply IH in Hnot].
Qed.

Lemma indexOf_present (l : list string) (x : string) :
  x ∈ l → indexOf l x ≠ (-1)%Z ∧ l !! Z.to_nat (indexOf l x) = Some x.
Proof.
  intros Hin. split; [by rewrite indexOf_absent; intros [] |].
  induction l as [|y l IH]; [by apply elem_of_nil in Hin|].
  simpl. case_decide as Hy; [by subst|].
  apply elem_of_cons in Hin as [->|Hin]; [done|].
  pose proof (indexOf_lower l x) as Hlow.
  assert (indexOf l x ≠ (-1)%Z) as Hne by (rewrite indexOf_absent; tauto).
  case_decide; [done|].
  replace (Z.to_nat (indexOf l x + 1)) with (S (Z.to_nat (indexOf l x))) by lia.
  simpl. by apply IH.
Qed.

(** [splice] at the index [indexOf] found takes out one occurrence. *)
Lemma splice1_indexOf (l : list string) (x : string) :
  x ∈ l → l ≡ₚ x :: splice1 l (indexOf l x).
Proof.
  intros Hin. apply indexOf_present in Hin as [_ Hlook].
  unfold splice1. by apply delete_Permutation.
Qed.

(** ** Enabling and disabling *)

Lemma enableFunction_absent (c : Controller) (n : string) :
  n ∉ enabledFunctions c → enableFunction c n = c.
Proof.
  intros Hnot. unfold enableFunction.
  apply indexOf_absent in Hnot. by case_decide.
Qed.

Lemma enableFunction_present (c : Controller) (n : string) :
  n ∈ enabledFunctions c →
  enabledFunctions (enableFunction c n) = enabledFunctions c ++ [n].
Proof.
  intros Hin. unfold enableFunction.
  apply indexOf_present in Hin as [Hne _]. by case_decide.
Qed.

Lemma disableFunction_absent (c : Controller) (n : string) :
  n ∉ enabledFunctions c → disableFunction c n = c.
Proof.
  intros Hnot. unfold disableFunction.
  apply indexOf_absent in Hnot. rewrite Hnot. by case_decide.
Qed.

Lemma disableFunction_present (c : Controller) (n : string) :
  n ∈ enabledFunctions c →
  enabledFunctions c ≡ₚ n :: enabledFunctions (disableFunction c n).
Proof.
  intros Hin. unfold disableFunction.
  destruct (indexOf_present _ _ Hin) as [Hne _].
  case_decide; [|done]. simpl. by apply splice1_indexOf.
Qed.

Lemma disableFunction_registered (c : Controller) (n : string) :
  registeredFunctionsMap (disableFunction c n) = registeredFunctionsMap c.
Proof. unfold disableFunction. by case_decide. Qed.

Lemma enableFunction_registered (c : Controller) (n : string) :
  registeredFunctionsMap (enableFunction c n) = registeredFunctionsMap c.
Proof. unfold enableFunction. by case_decide. Qed.

(** A name listed once is gone after [disableFunction]. *)
Lemma disableFunction_listed_once (c : Controller) (n : string) (l1 l2 : list string) :
  enabledFunctions c = l1 ++ n :: l2 → n ∉ l1 → n ∉ l2 →
  n ∉ enabledFunctions (disableFunction c n).
Proof.
  intros Heq H1 H2 Hin.
  assert (n ∈ enabledFunctions c) as Hc by (rewrite Heq; set_solver).
  pose proof (disableFunction_present c n Hc) as Hperm.
  rewrite Heq in Hperm.
  rewrite <- Permutation_middle in Hperm.
  apply Permutation_cons_inv in Hperm.
  assert (n ∈ l1 ++ l2) as Hin' by (by rewrite Hperm).
  apply elem_of_app in Hin' as [Hin'|Hin']; tauto.
Qed.

(** A name listed twice is still listed after [disableFunction]. *)
Lemma disableFunction_listed_twice (c : Controller) (n : string)
    (l1 l2 l3 : list string) :
  enabledFunctions c = l1 ++ n :: l2 ++ n :: l3 →
  n ∈ enabledFunctions (disableFunction c n).
Proof.
  intros Heq.
  assert (n ∈ enabledFunctions c) as Hc by (rewrite Heq; set_solver).
  pose proof (disableFunction_present c n Hc) as Hperm.
  rewrite Heq in Hperm.
  rewrite <- Permutation_middle in Hperm.
  apply Permutation_cons_inv in Hperm.
  rewrite <- Hperm. set_solver.
Qed.

(** ** The schema list *)

Lemma schemaOf_name (entry : string * ChatFunctionData) :
  fn_name (schemaOf entry) = entry.1.
Proof. by destruct entry. Qed.

(** The names [getRegisteredFunctions] lists are those that are registered
    and occur in [enabledFunctions]. *)
Lemma getRegisteredFunctions_names (c : Controller) (n : string) :
  n ∈ fn_name <$> getRegisteredFunctions c ↔
  is_Some (registeredFunctionsMap c !! n) ∧ n ∈ enabledFunctions c.
Proof.
  unfold getRegisteredFunctions, includes. split.
  - intros (f & -> & Hf)%list_elem_of_fmap.
    apply list_elem_of_filter in Hf as [Hen Hf].
    apply list_elem_of_fmap in Hf as ([k data] & -> & Hk).
    apply elem_of_map_to_list in Hk. simpl in *.
    apply bool_decide_eq_true in Hen. eauto.
  - intros [[data Hdata] Hen].
    apply list_elem_of_fmap. exists (schemaOf (n, data)). split; [done|].
    apply list_elem_of_filter. split.
    + simpl. by apply bool_decide_eq_true.
    + apply list_elem_of_fmap. exists (n, data). split; [done|].
      by apply elem_of_map_to_list.
Qed.

(** No name is listed twice, and each listed schema is built from the
    descriptor registered under its name. *)
Lemma getRegisteredFunctions_schema (c : Controller) (f : ChatCompletionFunctions) :
  f ∈ getRegisteredFunctions c ↔
  ∃ data, registeredFunctionsMap c !! fn_name f = Some data ∧
          f = schemaOf (fn_name f, data) ∧ fn_name f ∈ enabledFunctions c.
Proof.
  unfold getRegisteredFunctions, includes. rewrite list_elem_of_filter. split.
  - intros [Hen Hf]. apply bool_decide_eq_true in Hen.
    apply list_elem_of_fmap in Hf as ([k data] & -> & Hk).
    apply elem_of_map_to_list in Hk. exists data. by simpl.
  - intros (data & Hdata & Hf & Hen). split; [by apply bool_decide_eq_true|].
    apply list_elem_of_fmap. exists (fn_name f, data). split; [done|].
    by apply elem_of_map_to_list.
Qed.

Lemma getRegisteredFunctions_NoDup (c : Controller) :
  NoDup (fn_name <$> getRegisteredFunctions c).
Proof.
  unfold getRegisteredFunctions.
  assert (NoDup (fn_name <$> (schemaOf <$> map_to_list (registeredFunctionsMap c))))
    as Hnd.
  { rewrite <- list_fmap_compose.
    rewrite (list_fmap_ext (fn_name ∘ schemaOf) fst) by (by intros ? []).
    change (NoDup ((map_to_list (registeredFunctionsMap c)).*1)).
    apply NoDup_fst_map_to_list. }
  revert Hnd. generalize (schemaOf <$> map_to_list (registeredFunctionsMap c)).
  intros l. induction l as [|f l IH]; simpl; [constructor|].
  intros [Hf Hl]%NoDup_cons.
  rewrite filter_cons. case_decide; [|by apply IH].
  simpl. apply NoDup_cons. split; [|by apply IH].
  intros (g & Hg & Hin)%list_elem_of_fmap.
  apply list_elem_of_filter in Hin as [_ Hin].
  apply Hf. apply list_elem_of_fmap. eauto.
Qed.

(** ** Registration *)

Lemma registerFunctions_enabled (c : Controller) (plugin : Plugin)
    (opts : RegisterFunctionsOptions) :
  enabledFunctions (registerFunctions c plugin opts) =
  enabledFunctions c ++ (namespaced (namespace opts) <$> enable opts).
Proof. reflexivity. Qed.

Lemma registerFunctions_registered (c : Controller) (plugin : Plugin)
    (opts : RegisterFunctionsOptions) :
  registeredFunctionsMap (registerFunctions c plugin opts) =
  registerEach plugin (namespace opts) (prototype plugin) (registeredFunctionsMap c).
Proof. reflexivity. Qed.

Lemma registerEach_keeps (plugin : Plugin) (ns : option string)
    (props : list (string * Callable)) (registry : gmap string ChatFunctionData)
    (k : string) :
  is_Some (registry !! k) → is_Some (registerEach plugin ns props registry !! k).
Proof.
  revert registry. induction props as [|[key method] props IH]; intros registry Hk;
    simpl; [done|].
  destruct (functionMeta plugin !! key) as [md|]; [|by apply IH].
  apply IH. rewrite lookup_insert. case_decide; [by eexists | done].
Qed.

(** Every decorated method of the prototype is registered under its
    (namespaced) function name. *)
Lemma registerEach_declared (plugin : Plugin) (ns : option string)
    (props : list (string * Callable)) (registry : gmap string ChatFunctionData)
    (key : string) (method : Callable) (md : FunctionMetadata) :
  (key, method) ∈ props → functionMeta plugin !! key = Some md →
  is_Some (registerEach plugin ns props registry !! namespaced ns (fm_name md)).
Proof.
  revert registry. induction props as [|[key' method'] props IH];
    intros registry Hin Hmd; [by apply elem_of_nil in Hin|].
  simpl. apply elem_of_cons in Hin as [[= <- <-]|Hin].
  - rewrite Hmd. apply registerEach_keeps. rewrite lookup_insert_eq. by eexists.
  - destruct (functionMeta plugin !! key'); by apply IH.
Qed.

(** *** The parameter scan *)

Lemma scanParameters_length (meta : gmap (string * nat) ParameterMetadata)
    (key : string) (fuel i : nat) :
  length (scanParameters meta key fuel i) ≤ fuel.
Proof.
  revert i. induction fuel as [|fuel IH]; intros i; simpl; [lia|].
  destruct (meta !! (key, i)); simpl; [|lia]. specialize (IH (S i)). lia.
Qed.

Lemma scanParameters_lookup (meta : gmap (string * nat) ParameterMetadata)
    (key : string) (fuel i j : nat) :
  j < length (scanParameters meta key fuel i) →
  scanParameters meta key fuel i !! j = meta !! (key, i + j).
Proof.
  revert i j. induction fuel as [|fuel IH]; intros i j; simpl; [lia|].
  destruct (meta !! (key, i)) as [md|] eqn:Hmd; simpl; [|lia].
  destruct j as [|j]; simpl.
  - intros _. by rewrite Nat.add_0_r.
  - intros Hj. rewrite IH by lia. f_equal. f_equal. lia.
Qed.

(** A scan that stops with fuel to spare stopped at a position without
    metadata. *)
Lemma scanParameters_stops (meta : gmap (string * nat) ParameterMetadata)
    (key : string) (fuel i : nat) :
  length (scanParameters meta key fuel i) < fuel →
  meta !! (key, i + length (scanParameters meta key fuel i)) = None.
Proof.
  revert i. induction fuel as [|fuel IH]; intros i; simpl; [lia|].
  destruct (meta !! (key, i)) as [md|] eqn:Hmd; simpl.
  - intros Hlen. replace (i + S (length (scanParameters meta key fuel (S i))))
      with (S i + length (scanParameters meta key fuel (S i))) by lia.
    apply IH. lia.
  - intros _. by rewrite Nat.add_0_r.
Qed.

(** The size of the metadata map is fuel enough: the scan of [describe] ends
    at the first position that has no metadata, as the [while] loop does. *)
Lemma scanParameters_complete (meta : gmap (string * nat) ParameterMetadata)
    (key : string) :
  meta !! (key, length (scanParameters meta key (size meta) 0)) = None.
Proof.
  destruct (decide (length (scanParameters meta key (size meta) 0) < size meta))
    as [Hlt|Hge].
  { by apply (scanParameters_stops meta key (size meta) 0). }
  pose proof (scanParameters_length meta key (size meta) 0) as Hle.
  assert (length (scanParameters meta key (size meta) 0) = size meta) as Hlen by lia.
  rewrite Hlen.
  destruct (meta !! (key, size meta)) as [md|] eqn:Hmd; [|done]. exfalso.
  set (ks := (list_to_set ((λ j, (key, j)) <$> seq 0 (S (size meta)))
              : gset (string * nat))).
  assert (ks ⊆ dom meta) as Hsub.
  { intros [k j] Hk. apply elem_of_list_to_set in Hk.
    apply list_elem_of_fmap in Hk as (j' & [= -> ->] & Hj).
    apply elem_of_seq in Hj. apply elem_of_dom.
    destruct (decide (j' = size meta)) as [->|Hne]; [by eexists|].
    change j' with (0 + j').
    rewrite <- (scanParameters_lookup meta key (size meta) 0 j') by lia.
    apply lookup_lt_is_Some. lia. }
  apply subseteq_size in Hsub. rewrite size_dom in Hsub.
  assert (size ks = S (size meta)) as Hks.
  { unfold ks. rewrite size_list_to_set.
    - by rewrite length_fmap, length_seq.
    - apply NoDup_fmap_2; [by intros ?? [= ->] | apply NoDup_seq]. }
  lia.
Qed.

Lemma indexFrom_lookup (scanned : list ParameterMetadata) (i : nat)
    (acc : gmap string nat) (k : string) (v : nat) :
  indexFrom i scanned acc !! k = Some v → i ≤ v ∨ acc !! k = Some v.
Proof.
  revert i acc. induction scanned as [|md rest IH]; intros i acc; simpl; [auto|].
  intros [Hv|Hv]%IH; [left; lia|].
  rewrite lookup_insert in Hv.
  case_decide; [left; injection Hv as <-; lia | by right].
Qed.

Lemma indexFrom_keys (scanned : list ParameterMetadata) (i : nat)
    (acc : gmap string nat) (k : string) :
  is_Some (indexFrom i scanned acc !! k) ↔
  k ∈ pm_name <$> scanned ∨ is_Some (acc !! k).
Proof.
  revert i acc. induction scanned as [|md rest IH]; intros i acc; simpl.
  - rewrite elem_of_nil. tauto.
  - rewrite IH, elem_of_cons, lookup_insert.
    case_decide as Hk.
    + split; [auto | intros _; right; by eexists].
    + split; [intros [?|?]; auto | intros [[?|?]|?]; auto; congruence].
Qed.

(** Every required name is a key of the name-to-position map. *)
Lemma describe_required_indexed (plugin : Plugin) (key : string)
    (method : Callable) (md : FunctionMetadata) (r : string) :
  r ∈ parameterRequired (describe plugin key method md) →
  is_Some (parameterIndex (describe plugin key method md) !! r).
Proof.
  simpl. unfold requiredOf. intros (p & -> & Hp)%list_elem_of_fmap.
  apply list_elem_of_filter in Hp as [_ Hp].
  apply indexFrom_keys. left. apply list_elem_of_fmap. eauto.
Qed.

Lemma indexFrom_fresh (scanned : list ParameterMetadata) (i : nat)
    (acc : gmap string nat) (k : string) :
  k ∉ pm_name <$> scanned → indexFrom i scanned acc !! k = acc !! k.
Proof.
  revert i acc. induction scanned as [|md rest IH]; intros i acc Hk; [done|].
  rewrite fmap_cons in Hk. apply not_elem_of_cons in Hk as [Hne Hk].
  simpl. rewrite IH by done. by rewrite lookup_insert_ne.
Qed.

(** When the scanned names differ from one another, position [j] of the
    parameter list is the entry of the map with value [j]. *)
Lemma indexFrom_distinct (scanned : list ParameterMetadata) (i : nat)
    (acc : gmap string nat) (j : nat) (p : ParameterMetadata) :
  NoDup (pm_name <$> scanned) → scanned !! j = Some p →
  indexFrom i scanned acc !! pm_name p = Some (i + j).
Proof.
  revert i acc j. induction scanned as [|md rest IH]; intros i acc j Hnd Hj;
    [done|].
  rewrite fmap_cons in Hnd. apply NoDup_cons in Hnd as [Hmd Hnd].
  destruct j as [|j]; simpl in *.
  - injection Hj as ->. rewrite Nat.add_0_r.
    rewrite indexFrom_fresh by done. by rewrite lookup_insert_eq.
  - rewrite (IH (S i) _ j Hnd Hj). f_equal. lia.
Qed.

(** ** Visibility of registered functions *)

(** C9. [registerFunctions] appends every name of its [enable] option to
    [enabledFunctions], whether or not a descriptor is registered under it.
    So registering a plugin twice with [enable: [f]] adds [f] twice; one
    [disableFunction f] then takes out exactly one occurrence, [f] is still
    listed, and when the plugin declares it [getRegisteredFunctions] still
    shows it. *)
Theorem registerFunctions_twice_disable_once (c : Controller) (plugin : Plugin)
    (f key : string) (method : Callable) (md : FunctionMetadata) :
  (key, method) ∈ prototype plugin →
  functionMeta plugin !! key = Some md →
  fm_name md = f →
  (∀ c0 opts, enabledFunctions (registerFunctions c0 plugin opts) =
              enabledFunctions c0 ++ (namespaced (namespace opts) <$> enable opts))
  ∧ enabledFunctions (registerTwice c plugin f) = enabledFunctions c ++ [f; f]
  ∧ enabledFunctions (registerTwice c plugin f)
      ≡ₚ f :: enabledFunctions (disableFunction (registerTwice c plugin f) f)
  ∧ f ∈ enabledFunctions (disableFunction (registerTwice c plugin f) f)
  ∧ f ∈ fn_name <$>
        getRegisteredFunctions (disableFunction (registerTwice c plugin f) f).
Proof.
  intros Hin Hmd Hname. set (twice := registerTwice c plugin f).
  assert (enabledFunctions twice = enabledFunctions c ++ [f; f]) as Htwice.
  { unfold twice, registerTwice. rewrite !registerFunctions_enabled. simpl.
    by rewrite <- app_assoc. }
  assert (f ∈ enabledFunctions (disableFunction twice f)) as Hstill.
  { apply (disableFunction_listed_twice twice f (enabledFunctions c) [] []).
    by rewrite Htwice. }
  split; [by intros; apply registerFunctions_enabled|].
  split; [done|].
  split; [apply disableFunction_present; rewrite Htwice; set_solver|].
  split; [done|].
  apply getRegisteredFunctions_names. split; [|done].
  rewrite disableFunction_registered. unfold twice, registerTwice.
  rewrite registerFunctions_registered. simpl.
  rewrite <- Hname. change (fm_name md) with (namespaced None (fm_name md)).
  by apply (registerEach_declared plugin None _ _ key method).
Qed.

Lemma registerFunctions_twice_disable_once_witness :
  enabledFunctions (registerTwice (newController None) SystemPlugin "date_time")
    = ["date_time"; "date_time"]
  ∧ "date_time" ∈ fn_name <$>
      getRegisteredFunctions
        (disableFunction
           (registerTwice (newController None) SystemPlugin "date_time")
           "date_time").
Proof.
  split; [reflexivity|].
  apply (registerFunctions_twice_disable_once (newController None)
           SystemPlugin "date_time" "dateTime" dateTime
           {| fm_name := "date_time";
              fm_description := "Get the current date and time." |});
    [|reflexivity|reflexivity].
  apply elem_of_cons. right. apply elem_of_cons. by left.
Defined.

(** C3, on the code. A function that is registered and enabled is enabled
    once more and then disabled once: it is still listed by
    [getRegisteredFunctions], because [enableFunction] added a second
    occurrence of the name and [disableFunction] takes out only the first. *)
Theorem disabled_function_still_listed (c : Controller) (n : string) :
  is_Some (registeredFunctionsMap c !! n) → n ∈ enabledFunctions c →
  n ∈ fn_name <$> getRegisteredFunctions (disableFunction (enableFunction c n) n).
Proof.
  intros Hreg Hen. apply getRegisteredFunctions_names.
  rewrite disableFunction_registered, enableFunction_registered.
  split; [done|].
  apply list_elem_of_split in Hen as Hsplit. destruct Hsplit as (l1 & l2 & Heq).
  apply (disableFunction_listed_twice _ n l1 l2 []).
  rewrite enableFunction_present by done. rewrite Heq.
  by rewrite <- app_assoc.
Qed.

Lemma disabled_function_still_listed_witness :
  enabledFunctions systemController = ["date_time"]
  ∧ "date_time" ∈ fn_name <$>
      getRegisteredFunctions
        (disableFunction (enableFunction systemController "date_time")
                         "date_time").
Proof.
  split; [reflexivity|].
  apply (disabled_function_still_listed systemController "date_time").
  - apply (registerEach_declared SystemPlugin None _ _ "dateTime" dateTime
             {| fm_name := "date_time";
                fm_description := "Get the current date and time." |});
      [|reflexivity].
    apply elem_of_cons. right. apply elem_of_cons. by left.
  - apply elem_of_cons. by left.
Defined.

(** C4, on the code. [enableFunction] does not enable a name that is not
    enabled yet: it leaves the controller as it was, the name is still not a
    member of [enabledFunctions]. *)
Theorem enableFunction_leaves_disabled (c : Controller) (n : string) :
  n ∉ enabledFunctions c →
  enableFunction c n = c ∧ n ∉ enabledFunctions (enableFunction c n).
Proof.
  intros Hnot. rewrite enableFunction_absent by done. by split.
Qed.

Lemma enableFunction_leaves_disabled_witness :
  ("date_time" ∉ enabledFunctions (newController None))
  ∧ enableFunction (newController None) "date_time" = newController None
  ∧ "date_time" ∉ enabledFunctions (enableFunction (newController None) "date_time").
Proof.
  assert ("date_time" ∉ enabledFunctions (newController None)) as Hnot
    by apply not_elem_of_nil.
  split; [exact Hnot|].
  exact (enableFunction_leaves_disabled (newController None) "date_time" Hnot).
Defined.

(** On a name that is enabled, every further [enableFunction] lengthens the
    list, and [disableFunction] undoes one of them at a time. *)
Lemma enableFunction_twice_grows (c : Controller) (n : string) :
  n ∈ enabledFunctions c →
  enabledFunctions (enableFunction (enableFunction c n) n) =
  enabledFunctions c ++ [n; n].
Proof.
  intros Hen. rewrite enableFunction_present.
  - rewrite enableFunction_present by done. by rewrite <- app_assoc.
  - rewrite enableFunction_present by done. set_solver.
Qed.

(** ** Descriptors *)

(** C5, on the code. The method [addNumbers] of [AdderPlugin] has two
    decorated parameters. Its descriptor has two entries in [parameterData],
    both named after the method, and one entry in [parameterIndex], with
    value [1]: no entry of the map has value [0]. *)
Theorem decorated_parameters_share_one_name :
  ∃ data,
    registeredFunctionsMap
      (registerFunctions (newController None) AdderPlugin (enabling ["add"]))
      !! "add" = Some data
    ∧ pm_name <$> parameterData data = ["addNumbers"; "addNumbers"]
    ∧ parameterIndex data = {[ "addNumbers" := 1 ]}
    ∧ ∀ k, parameterIndex data !! k ≠ Some 0.
Proof.
  eexists. split; [vm_compute; reflexivity|].
  split; [reflexivity|].
  assert (parameterIndex (describe AdderPlugin "addNumbers" addNumbers
            {| fm_name := "add"; fm_description := "Add two numbers" |})
          = {[ "addNumbers" := 1 ]}) as Hindex by (by vm_compute).
  split; [exact Hindex|].
  intros k Hk. simpl in Hk.
  change (parameterIndex (describe AdderPlugin "addNumbers" addNumbers
            {| fm_name := "add"; fm_description := "Add two numbers" |}) !! k
          = Some 0) in Hk.
  rewrite Hindex in Hk. apply lookup_singleton_Some in Hk as [_ Hk]. lia.
Qed.

(** The decorator names every parameter after the method it belongs to. *)
Lemma ChatParameter_name (data : ParameterDecl) (propertyKey : string)
    (i : nat) (target : Plugin) (md : ParameterMetadata) :
  parameterMeta (ChatParameter data propertyKey i target) !! (propertyKey, i)
    = Some md → pm_name md = propertyKey.
Proof. simpl. rewrite lookup_insert_eq. by intros [= <-]. Qed.

(** Two decorated parameters of one method are enough to break the
    correspondence, whatever else the plugin holds: both entries are named
    after the method, the second [set] overwrites the first, and no name is
    left with position [0]. *)
Lemma ChatParameter_twice_no_position_0 (d0 d1 : ParameterDecl)
    (key : string) (target : Plugin) (method : Callable)
    (md : FunctionMetadata) (k : string) :
  let plugin := ChatParameter d0 key 0 (ChatParameter d1 key 1 target) in
  2 ≤ length (parameterData (describe plugin key method md))
  ∧ parameterIndex (describe plugin key method md) !! k ≠ Some 0.
Proof.
  intros plugin.
  set (m0 := {| pm_description := pd_description d0; pm_type := pd_type d0;
                pm_required := pd_required d0; pm_name := key |}).
  set (m1 := {| pm_description := pd_description d1; pm_type := pd_type d1;
                pm_required := pd_required d1; pm_name := key |}).
  assert (parameterMeta plugin !! (key, 0) = Some m0) as H0
    by (simpl; by rewrite lookup_insert_eq).
  assert (parameterMeta plugin !! (key, 1) = Some m1) as H1.
  { simpl. rewrite lookup_insert_ne by congruence. by rewrite lookup_insert_eq. }
  assert (2 ≤ size (parameterMeta plugin)) as Hsize.
  { assert (({[ (key, 0); (key, 1) ]} : gset (string * nat))
              ⊆ dom (parameterMeta plugin)) as Hsub.
    { intros x [->%elem_of_singleton| ->%elem_of_singleton]%elem_of_union;
        apply elem_of_dom; by eexists. }
    apply subseteq_size in Hsub. rewrite size_dom in Hsub.
    rewrite size_union in Hsub by set_solver.
    by rewrite !size_singleton in Hsub. }
  destruct (size (parameterMeta plugin)) as [|[|fuel]] eqn:Hfuel; [lia..|].
  assert (∃ rest, parameterData (describe plugin key method md)
                  = m0 :: m1 :: rest) as [rest Hscan].
  { unfold describe. cbn [parameterData]. rewrite Hfuel.
    cbn [scanParameters]. rewrite H0, H1. by eexists. }
  split; [rewrite Hscan; simpl; lia|].
  intros Hk.
  assert (parameterIndex (describe plugin key method md)
          = indexFrom 0 (parameterData (describe plugin key method md)) ∅)
    as Hindex by reflexivity.
  rewrite Hindex, Hscan in Hk. simpl in Hk.
  apply indexFrom_lookup in Hk as [Hk|Hk]; [lia|].
  rewrite lookup_insert in Hk. case_decide; [done|].
  rewrite lookup_insert_ne in Hk by done. by rewrite lookup_empty in Hk.
Qed.

(** With metadata whose names differ from one another the two structures do
    agree: the parameter at position [j] is the entry of the map with value
    [j], and no other name has that value. *)
Lemma describe_consistent (plugin : Plugin) (key : string) (method : Callable)
    (md : FunctionMetadata) :
  let data := describe plugin key method md in
  NoDup (pm_name <$> parameterData data) →
  ∀ j p, parameterData data !! j = Some p →
         parameterIndex data !! pm_name p = Some j
         ∧ ∀ k, parameterIndex data !! k = Some j → k = pm_name p.
Proof.
  intros data Hnd j p Hj. simpl in *.
  split; [by apply (indexFrom_distinct _ 0 ∅ j p)|].
  intros k Hk.
  assert (is_Some (indexFrom 0 (parameterData data) ∅ !! k)) as Hsome by eauto.
  apply indexFrom_keys in Hsome as [Hin|[? Hempty]]; [|by rewrite lookup_empty in Hempty].
  apply list_elem_of_fmap in Hin as (q & -> & Hq).
  apply list_elem_of_lookup in Hq as [j' Hj'].
  pose proof (indexFrom_distinct _ 0 ∅ j' q Hnd Hj') as Hq.
  simpl in Hk. unfold data in Hq. simpl in Hq. rewrite Hq in Hk.
  injection Hk as ->. simpl in Hj'. unfold data in Hj. simpl in Hj.
  congruence.
Qed.

(** ** Strings *)

Lemma append_assoc (s1 s2 s3 : string) : (s1 +:+ s2) +:+ s3 = s1 +:+ (s2 +:+ s3).
Proof.
  induction s1 as [|ch s1 IH]; [reflexivity|].
  change (String ch ((s1 +:+ s2) +:+ s3) = String ch (s1 +:+ s2 +:+ s3)).
  by rewrite IH.
Qed.

Lemma substring0_length (n : nat) (text : string) :
  String.length (substring0 n text) = n `min` String.length text.
Proof.
  unfold substring0. revert n. induction text as [|ch text IH]; intros [|n];
    simpl; try done.
  by rewrite IH.
Qed.

Lemma substring0_zero (text : string) : substring0 0 text = EmptyString.
Proof. by destruct text. Qed.

Lemma substring0_empty (n : nat) : substring0 n EmptyString = EmptyString.
Proof. by destruct n. Qed.

Lemma length_zero_empty (text : string) :
  String.length text = 0 → text = EmptyString.
Proof. by destruct text. Qed.

(** ** The dispatcher *)

Lemma array_set_length {A : Type} (arr : list (option A)) (pos : nat) (v : A) :
  length (array_set arr pos v) = length arr `max` S pos.
Proof.
  unfold array_set. case_decide.
  - rewrite length_insert. lia.
  - rewrite !length_app, length_replicate. simpl. lia.
Qed.

Lemma array_set_lookup {A : Type} (arr : list (option A)) (pos : nat) (v : A) :
  array_set arr pos v !! pos = Some (Some v).
Proof.
  unfold array_set. case_decide.
  - by apply list_lookup_insert_eq.
  - rewrite lookup_app_r by lia.
    rewrite lookup_app_r by (rewrite length_replicate; lia).
    rewrite length_replicate.
    by replace (pos - length arr - (pos - length arr)) with 0 by lia.
Qed.

Lemma Permutation_length_3_inv {A : Type} (x y z : A) (l : list A) :
  l ≡ₚ [x; y; z] →
  l = [x; y; z] ∨ l = [x; z; y] ∨ l = [y; x; z] ∨
  l = [z; x; y] ∨ l = [y; z; x] ∨ l = [z; y; x].
Proof.
  intros (k1 & k2 & -> & Hrest)%Permutation_cons_inv_r.
  apply Permutation_length_2_inv in Hrest as [Hrest|Hrest];
    destruct k1 as [|p [|q [|r k1]]]; simplify_eq/=; auto 10.
Qed.

Section Dispatcher.

Variable JSON_parse : string → result JsValue.

Lemma everyRequired_object (required : list string)
    (props : list (string * JsValue)) :
  everyRequired required (JObject props) = Ok (forallb (includes (props.*1)) required).
Proof.
  induction required as [|r required IH]; simpl; [done|].
  destruct (includes (props.*1) r); simpl; [apply IH | done].
Qed.

(** The dispatcher on a payload that parses to an object. *)
Lemma handleFunctionCall_object (c : Controller) (name args : string)
    (funcData : ChatFunctionData) (props : list (string * JsValue)) :
  registeredFunctionsMap c !! name = Some funcData →
  JSON_parse args = Ok (JObject props) →
  handleFunctionCall JSON_parse c name args =
  if forallb (includes (props.*1)) (parameterRequired funcData) then
    argsArray ← placeArguments (parameterIndex funcData) props [];
    func funcData argsArray
  else throw (missingRequiredMessage (parameterRequired funcData) (props.*1)).
Proof.
  intros Hname Hparse. unfold handleFunctionCall. rewrite Hname, Hparse. simpl.
  rewrite everyRequired_object. simpl.
  by destruct (forallb _ _).
Qed.

Lemma handleFunctionCall_not_found (c : Controller) (name args : string) :
  registeredFunctionsMap c !! name = None →
  handleFunctionCall JSON_parse c name args =
  throw ("Function " +:+ name +:+ " not found").
Proof. intros Hname. unfold handleFunctionCall. by rewrite Hname. Qed.

Lemma handleFunctionCall_parse_error (c : Controller) (name args : string)
    (funcData : ChatFunctionData) (e : Error) :
  registeredFunctionsMap c !! name = Some funcData →
  JSON_parse args = Err e →
  handleFunctionCall JSON_parse c name args = Err e.
Proof.
  intros Hname Hparse. unfold handleFunctionCall. by rewrite Hname, Hparse.
Qed.

Lemma handleFunctionCall_missing (c : Controller) (name args : string)
    (funcData : ChatFunctionData) (props : list (string * JsValue)) (r : string) :
  registeredFunctionsMap c !! name = Some funcData →
  JSON_parse args = Ok (JObject props) →
  r ∈ parameterRequired funcData → r ∉ props.*1 →
  handleFunctionCall JSON_parse c name args =
  throw (missingRequiredMessage (parameterRequired funcData) (props.*1)).
Proof.
  intros Hname Hparse Hr Hnot.
  rewrite (handleFunctionCall_object c name args funcData props) by done.
  destruct (forallb _ _) eqn:Hall; [|done].
  rewrite forallb_forall in Hall.
  apply list_elem_of_In, Hall in Hr. unfold includes in Hr.
  by apply bool_decide_eq_true in Hr.
Qed.

(** The first key without a position stops the loop. *)
Lemma placeArguments_unknown (index : gmap string nat)
    (props : list (string * JsValue)) (argsArray : list (option JsValue))
    (d : string) :
  d ∈ props.*1 → index !! d = None →
  (∀ k, k ∈ props.*1 → k ≠ d → is_Some (index !! k)) →
  placeArguments index props argsArray = throw ("Unknown parameter " +:+ d).
Proof.
  revert argsArray. induction props as [|[key value] props IH];
    intros argsArray Hd Hnone Hothers; [by apply elem_of_nil in Hd|].
  simpl in *. destruct (decide (key = d)) as [->|Hne].
  - by rewrite Hnone.
  - destruct (Hothers key) as [pos Hpos]; [by left | done |].
    rewrite Hpos. apply IH; [|done|].
    + by apply elem_of_cons in Hd as [->|Hd].
    + intros k Hk. apply Hothers. by right.
Qed.

Lemma placeArguments_some_unknown (index : gmap string nat)
    (props : list (string * JsValue)) (argsArray : list (option JsValue))
    (d : string) :
  d ∈ props.*1 → index !! d = None →
  ∃ k, k ∈ props.*1 ∧ index !! k = None ∧
       placeArguments index props argsArray = throw ("Unknown parameter " +:+ k).
Proof.
  revert argsArray. induction props as [|[key value] props IH];
    intros argsArray Hd Hnone; [by apply elem_of_nil in Hd|].
  simpl in *. destruct (index !! key) as [pos|] eqn:Hpos.
  - apply elem_of_cons in Hd as [->|Hd]; [congruence|].
    destruct (IH (array_set argsArray pos value) Hd Hnone) as (k & Hk & Hkn & Heq).
    exists k. split; [by right | done].
  - exists key. split; [by left | done].
Qed.

(** When every key has a position the loop ends with an array that holds
    each value at the position of its key. *)
Lemma placeArguments_known (index : gmap string nat)
    (props : list (string * JsValue)) (argsArray : list (option JsValue)) :
  (∀ k, k ∈ props.*1 → is_Some (index !! k)) →
  ∃ placed, placeArguments index props argsArray = Ok placed
            ∧ length argsArray ≤ length placed.
Proof.
  revert argsArray. induction props as [|[key value] props IH];
    intros argsArray Hknown; simpl in *; [by eexists|].
  destruct (Hknown key) as [pos Hpos]; [by left|]. rewrite Hpos.
  destruct (IH (array_set argsArray pos value)) as (placed & Hplaced & Hlen).
  { intros k Hk. apply Hknown. by right. }
  exists placed. split; [done|].
  rewrite array_set_length in Hlen. lia.
Qed.

Lemma handleFunctionCall_unknown (c : Controller) (name args : string)
    (funcData : ChatFunctionData) (props : list (string * JsValue)) (d : string) :
  registeredFunctionsMap c !! name = Some funcData →
  JSON_parse args = Ok (JObject props) →
  forallb (includes (props.*1)) (parameterRequired funcData) = true →
  d ∈ props.*1 → parameterIndex funcData !! d = None →
  ∃ k, k ∈ props.*1 ∧ parameterIndex funcData !! k = None ∧
       handleFunctionCall JSON_parse c name args =
       throw ("Unknown parameter " +:+ k).
Proof.
  intros Hname Hparse Hall Hd Hnone.
  rewrite (handleFunctionCall_object c name args funcData props) by done.
  rewrite Hall.
  destruct (placeArguments_some_unknown (parameterIndex funcData) props [] d)
    as (k & Hk & Hkn & Heq); [done..|].
  exists k. by rewrite Heq.
Qed.

(** The outcome of a dispatch that passes the checks is the outcome of the
    callable, an error it throws included. *)
Lemma handleFunctionCall_callee (c : Controller) (name args : string)
    (funcData : ChatFunctionData) (props : list (string * JsValue))
    (placed : list (option JsValue)) :
  registeredFunctionsMap c !! name = Some funcData →
  JSON_parse args = Ok (JObject props) →
  forallb (includes (props.*1)) (parameterRequired funcData) = true →
  placeArguments (parameterIndex funcData) props [] = Ok placed →
  handleFunctionCall JSON_parse c name args = func funcData placed.
Proof.
  intros Hname Hparse Hall Hplaced.
  rewrite (handleFunctionCall_object c name args funcData props) by done.
  by rewrite Hall, Hplaced.
Qed.

(** The dispatcher reads the registry only: disabling or enabling a name
    does not change what a dispatch does. *)
Lemma handleFunctionCall_disabled (c : Controller) (n name args : string) :
  handleFunctionCall JSON_parse (disableFunction c n) name args =
  handleFunctionCall JSON_parse c name args.
Proof.
  unfold handleFunctionCall. by rewrite disableFunction_registered.
Qed.

Lemma handleFunctionCall_enabled (c : Controller) (n name args : string) :
  handleFunctionCall JSON_parse (enableFunction c n) name args =
  handleFunctionCall JSON_parse c name args.
Proof.
  unfold handleFunctionCall. by rewrite enableFunction_registered.
Qed.

Lemma missingRequiredMessage_two (a b : string) :
  missingRequiredMessage [a; b] [a] =
  "Missing required parameters (needed " +:+ dquote +:+ a +:+ ", " +:+ b
    +:+ dquote +:+ ", got " +:+ a +:+ ")".
Proof.
  unfold missingRequiredMessage, join. simpl String.concat.
  by rewrite !append_assoc.
Qed.

(** C1. A function is registered with the required parameters [a] and [b]
    at positions 0 and 1 and the optional parameter [c] at position 2.
    A payload with only [a] is refused with the message that names the
    needed [a, b] and the received [a]; a payload with [a], [b] and an
    undeclared [d] is refused with [Unknown parameter d]; a payload with
    [a] and [b], or with [a], [b] and [c], in any order of its properties,
    passes the checks and the callable is invoked with the values at their
    declared positions, its outcome being the outcome of the dispatch. *)
Theorem handleFunctionCall_three_parameters (c : Controller) (name : string)
    (funcData : ChatFunctionData) (a b c3 d : string) :
  registeredFunctionsMap c !! name = Some funcData →
  parameterRequired funcData = [a; b] →
  parameterIndex funcData = {[ a := 0; b := 1; c3 := 2 ]} →
  a ≠ b → a ≠ c3 → b ≠ c3 → d ≠ a → d ≠ b → d ≠ c3 →
  (∀ args va,
     JSON_parse args = Ok (JObject [(a, va)]) →
     handleFunctionCall JSON_parse c name args =
     throw ("Missing required parameters (needed " +:+ dquote +:+ a +:+ ", "
              +:+ b +:+ dquote +:+ ", got " +:+ a +:+ ")"))
  ∧ (∀ args props va vb vd,
       JSON_parse args = Ok (JObject props) →
       props ≡ₚ [(a, va); (b, vb); (d, vd)] →
       handleFunctionCall JSON_parse c name args =
       throw ("Unknown parameter " +:+ d))
  ∧ (∀ args props va vb,
       JSON_parse args = Ok (JObject props) →
       props ≡ₚ [(a, va); (b, vb)] →
       handleFunctionCall JSON_parse c name args =
       func funcData [Some va; Some vb])
  ∧ (∀ args props va vb vc,
       JSON_parse args = Ok (JObject props) →
       props ≡ₚ [(a, va); (b, vb); (c3, vc)] →
       handleFunctionCall JSON_parse c name args =
       func funcData [Some va; Some vb; Some vc]).
Proof.
  intros Hname Hreq Hindex Hab Hac Hbc Hda Hdb Hdc.
  assert (parameterIndex funcData !! a = Some 0) as Ha
    by (rewrite Hindex; by simplify_map_eq).
  assert (parameterIndex funcData !! b = Some 1) as Hb
    by (rewrite Hindex; by simplify_map_eq).
  assert (parameterIndex funcData !! c3 = Some 2) as Hc
    by (rewrite Hindex; by simplify_map_eq).
  assert (parameterIndex funcData !! d = None) as Hd
    by (rewrite Hindex; by simplify_map_eq).
  assert (∀ keys, a ∈ keys → b ∈ keys →
                  forallb (includes keys) (parameterRequired funcData) = true)
    as Hall.
  { intros keys Hka Hkb. rewrite Hreq. simpl. unfold includes.
    by rewrite !bool_decide_eq_true_2. }
  repeat split.
  - intros args va Hparse.
    rewrite (handleFunctionCall_missing c name args funcData [(a, va)] b);
      try done.
    + rewrite Hreq. simpl. by rewrite missingRequiredMessage_two.
    + rewrite Hreq. set_solver.
    + simpl. intros Hin. apply list_elem_of_singleton in Hin. congruence.
  - intros args props va vb vd Hparse Hperm.
    rewrite (handleFunctionCall_object c name args funcData props) by done.
    assert (props.*1 ≡ₚ [a; b; d]) as Hkeys by (by rewrite Hperm).
    rewrite Hall by (rewrite Hkeys; set_solver).
    rewrite (placeArguments_unknown _ props [] d); [done | | done |].
    + rewrite Hkeys. set_solver.
    + intros k Hk Hne. rewrite Hkeys in Hk.
      apply elem_of_cons in Hk as [->|Hk]; [by eexists|].
      apply elem_of_cons in Hk as [->|Hk]; [by eexists|].
      apply list_elem_of_singleton in Hk. done.
  - intros args props va vb Hparse Hperm.
    rewrite (handleFunctionCall_object c name args funcData props) by done.
    assert (props.*1 ≡ₚ [a; b]) as Hkeys by (by rewrite Hperm).
    rewrite Hall by (rewrite Hkeys; set_solver).
    symmetry in Hperm. apply Permutation_length_2_inv in Hperm as [->| ->];
      simpl; rewrite ?Ha, ?Hb; simpl; rewrite ?Ha, ?Hb; reflexivity.
  - intros args props va vb vc Hparse Hperm.
    rewrite (handleFunctionCall_object c name args funcData props) by done.
    assert (props.*1 ≡ₚ [a; b; c3]) as Hkeys by (by rewrite Hperm).
    rewrite Hall by (rewrite Hkeys; set_solver).
    apply Permutation_length_3_inv in Hperm
      as [->|[->|[->|[->|[->| ->]]]]];
      simpl; rewrite ?Ha, ?Hb, ?Hc; simpl; rewrite ?Ha, ?Hb, ?Hc; simpl;
      rewrite ?Ha, ?Hb, ?Hc; reflexivity.
Qed.

End Dispatcher.

(** ** The truncation loop *)

Lemma truncateStep_empty (budget : nat) :
  truncateStep EmptyString budget = EmptyString.
Proof. unfold truncateStep. destruct (decide _); apply substring0_empty. Qed.

(** Each branch shortens a text that is not empty. *)
Lemma truncateStep_shorter (text : string) (budget : nat) :
  text ≠ EmptyString →
  String.length (truncateStep text budget) < String.length text.
Proof.
  intros Hne. assert (0 < String.length text) as Hpos.
  { destruct text; [done | simpl; lia]. }
  unfold truncateStep. case_decide; rewrite substring0_length; lia.
Qed.

(** A text of at most four characters is cut to the empty text. *)
Lemma truncateStep_short (text : string) (budget : nat) :
  0 < budget → String.length text ≤ 4 → truncateStep text budget = EmptyString.
Proof.
  intros Hb Hlen. unfold truncateStep. case_decide; [lia|].
  replace (String.length text - 4) with 0 by lia. apply substring0_zero.
Qed.

Section Truncation.

Variable isWithinTokenLimit : string → nat → option nat.

Lemma truncateResult_accepted (fuel : nat) (text : string) (budget : nat) :
  js_not (isWithinTokenLimit text budget) = false →
  truncateResult isWithinTokenLimit (S fuel) text budget = Some text.
Proof. intros Hacc. simpl. by rewrite Hacc. Qed.

Lemma truncateResult_rejected (fuel : nat) (text : string) (budget : nat) :
  js_not (isWithinTokenLimit text budget) = true →
  truncateResult isWithinTokenLimit (S fuel) text budget =
  truncateResult isWithinTokenLimit fuel (truncateStep text budget) budget.
Proof. intros Hrej. simpl. by rewrite Hrej. Qed.

(** The text the loop ends with passes the token check, and so the loop
    leaves it as it is. *)
Lemma truncateResult_output_accepted (fuel : nat) (text out : string)
    (budget : nat) :
  truncateResult isWithinTokenLimit fuel text budget = Some out →
  js_not (isWithinTokenLimit out budget) = false.
Proof.
  revert text. induction fuel as [|fuel IH]; intros text; simpl; [done|].
  destruct (js_not (isWithinTokenLimit text budget)) eqn:Hcheck.
  - apply IH.
  - by intros [= <-].
Qed.

Lemma truncateResult_fixed_point (fuel fuel' : nat) (text out : string)
    (budget : nat) :
  truncateResult isWithinTokenLimit fuel text budget = Some out →
  truncateResult isWithinTokenLimit (S fuel') out budget = Some out.
Proof.
  intros Hout. apply truncateResult_accepted.
  by apply (truncateResult_output_accepted fuel text).
Qed.

Lemma truncateResult_more_fuel (fuel fuel' : nat) (text out : string)
    (budget : nat) :
  truncateResult isWithinTokenLimit fuel text budget = Some out →
  fuel ≤ fuel' →
  truncateResult isWithinTokenLimit fuel' text budget = Some out.
Proof.
  revert fuel' text. induction fuel as [|fuel IH]; intros fuel' text; [done|].
  intros Hout Hle. destruct fuel' as [|fuel']; [lia|].
  simpl in *. destruct (js_not (isWithinTokenLimit text budget)); [|done].
  apply IH; [done | lia].
Qed.

(** The token count of the empty text is [0], which [!] reads as a refusal:
    on the empty text the loop goes round without end. *)
Lemma truncateResult_empty (budget : nat) :
  isWithinTokenLimit EmptyString budget = Some 0 →
  ∀ fuel, truncateResult isWithinTokenLimit fuel EmptyString budget = None.
Proof.
  intros Hzero fuel. induction fuel as [|fuel IH]; [done|].
  rewrite truncateResult_rejected by (by rewrite Hzero).
  by rewrite truncateStep_empty.
Qed.

(** So the loop never ends with the empty text. *)
Lemma truncateResult_output_not_empty (fuel : nat) (text : string)
    (budget : nat) :
  isWithinTokenLimit EmptyString budget = Some 0 →
  truncateResult isWithinTokenLimit fuel text budget ≠ Some EmptyString.
Proof.
  intros Hzero Hout. apply truncateResult_output_accepted in Hout.
  by rewrite Hzero in Hout.
Qed.

(** Were the empty text to pass the check, the loop would end for every
    text within [length text + 1] rounds. *)
Lemma truncateResult_ends_if_empty_accepted (text : string) (budget : nat) :
  js_not (isWithinTokenLimit EmptyString budget) = false →
  ∃ out, truncateResult isWithinTokenLimit (S (String.length text)) text budget
         = Some out.
Proof.
  intros Hempty.
  remember (String.length text) as n eqn:Hn.
  revert text Hn. induction (lt_wf n) as [n _ IH]; intros text ->.
  destruct (js_not (isWithinTokenLimit text budget)) eqn:Hcheck.
  - assert (text ≠ EmptyString) as Hne by (intros ->; congruence).
    pose proof (truncateStep_shorter text budget Hne) as Hshort.
    destruct (IH _ Hshort (truncateStep text budget) eq_refl) as [out Hout].
    exists out. rewrite truncateResult_rejected by done.
    apply (truncateResult_more_fuel _ _ _ _ _ Hout). lia.
  - exists text. by apply truncateResult_accepted.
Qed.

(** C8, on the code. The token check answers the count [0] for the empty
    text, and [!0] holds: on the empty text the loop does not terminate,
    whatever the fuel, and its branch does not shrink the text. *)
Theorem truncateResult_does_not_terminate (budget : nat) :
  isWithinTokenLimit EmptyString budget = Some 0 →
  truncateStep EmptyString budget = EmptyString
  ∧ ∀ fuel, truncateResult isWithinTokenLimit fuel EmptyString budget = None.
Proof.
  intros Hzero. split; [apply truncateStep_empty | by apply truncateResult_empty].
Qed.

(** C7, on the code. A text of at most four characters that the token check
    refuses is cut to the empty text, and the loop never returns it: there
    is no final text, neither within the budget nor empty. *)
Theorem truncateResult_has_no_empty_output (text : string) (budget : nat) :
  0 < budget → String.length text ≤ 4 →
  js_not (isWithinTokenLimit text budget) = true →
  isWithinTokenLimit EmptyString budget = Some 0 →
  ∀ fuel, truncateResult isWithinTokenLimit fuel text budget = None.
Proof.
  intros Hb Hlen Hrej Hzero [|fuel]; [done|].
  rewrite truncateResult_rejected by done.
  rewrite truncateStep_short by done.
  by apply truncateResult_empty.
Qed.

End Truncation.

Lemma truncateResult_does_not_terminate_witness :
  charTokens EmptyString 2048 = Some 0
  ∧ ∀ fuel, truncateResult charTokens fuel EmptyString 2048 = None.
Proof.
  split; [reflexivity|].
  apply (truncateResult_does_not_terminate charTokens 2048). reflexivity.
Defined.

Lemma truncateResult_has_no_empty_output_witness :
  js_not (charTokens "1234" 1) = true
  ∧ ∀ fuel, truncateResult charTokens fuel "1234" 1 = None.
Proof.
  split; [reflexivity|].
  apply (truncateResult_has_no_empty_output charTokens "1234" 1).
  - lia.
  - simpl. lia.
  - reflexivity.
  - reflexivity.
Defined.

(** ** Function messages *)

Section FunctionMessages.

Variable JSON_parse : string → result JsValue.
Variable JSON_stringify : JsValue → string.
Variable isWithinTokenLimit : string → nat → option nat.

(** Every failure of the dispatch is caught and becomes the content of a
    function message; no fuel is needed and nothing is thrown. *)
Lemma getFunctionMessage_failure (fuel : nat) (c : Controller)
    (name args : string) (options : option nat) (e : Error) :
  handleFunctionCall JSON_parse c name args = Err e →
  getFunctionMessage JSON_parse JSON_stringify isWithinTokenLimit
    fuel c name args options =
  Some {| role := role_function; name := Some name;
          content := Some (JSON_stringify
                             (JObject [("error", JString (message e))]));
          function_call := None |}.
Proof. intros Hfail. unfold getFunctionMessage. by rewrite Hfail. Qed.


(** Whatever [getFunctionMessage] returns is a function message that carries
    the name it was called with. *)
Lemma getFunctionMessage_shape (fuel : nat) (c : Controller)
    (name args : string) (options : option nat) (m : Message) :
  getFunctionMessage JSON_parse JSON_stringify isWithinTokenLimit
    fuel c name args options = Some m →
  ∃ text, m = {| role := role_function; name := Some name;
                 content := Some text; function_call := None |}.
Proof.
  unfold getFunctionMessage.
  destruct (handleFunctionCall JSON_parse c name args) as [result|e].
  - destruct (truncateResult _ _ _ _) as [text|]; [|done].
    intros [= <-]. by exists text.
  - intros [= <-]. by eexists.
Qed.

(** C2, on the code. A callee that returns the empty string is dispatched
    successfully, but [getFunctionMessage] returns no message for it: the
    truncation loop spins on the empty text. *)
Theorem getFunctionMessage_empty_result (c : Controller) (name args : string)
    (options : option nat) :
  handleFunctionCall JSON_parse c name args = Ok EmptyString →
  isWithinTokenLimit EmptyString (requestMaxTokens (mergeOptions c options))
    = Some 0 →
  ∀ fuel, getFunctionMessage JSON_parse JSON_stringify isWithinTokenLimit
            fuel c name args options = None.
Proof.
  intros Hok Hzero fuel. unfold getFunctionMessage.
  rewrite Hok. by rewrite truncateResult_empty.
Qed.

(** C10. A message without [function_call] makes
    [getFunctionMessageFromMessage] throw the error "Message does not have a
    function call"; the outcome is that error and not a returned message. *)
Theorem getFunctionMessageFromMessage_without_call (fuel : nat)
    (c : Controller) (m : Message) (options : option nat) :
  function_call m = None →
  getFunctionMessageFromMessage JSON_parse JSON_stringify isWithinTokenLimit
    fuel c m options
  = Some (Err {| message := "Message does not have a function call" |})
  ∧ ∀ reply, getFunctionMessageFromMessage JSON_parse JSON_stringify
               isWithinTokenLimit fuel c m options ≠ Some (Ok reply).
Proof.
  intros Hcall. unfold getFunctionMessageFromMessage. rewrite Hcall.
  split; [reflexivity | by intros reply].
Qed.

(** With a [function_call] the outcome is never a thrown error. *)
Lemma getFunctionMessageFromMessage_with_call (fuel : nat) (c : Controller)
    (m : Message) (options : option nat) (call : FunctionCall) (e : Error) :
  function_call m = Some call →
  getFunctionMessageFromMessage JSON_parse JSON_stringify isWithinTokenLimit
    fuel c m options ≠ Some (Err e).
Proof.
  intros Hcall. unfold getFunctionMessageFromMessage. rewrite Hcall.
  by destruct (getFunctionMessage _ _ _ _ _ _ _ _).
Qed.

End FunctionMessages.

Lemma handleFunctionCall_three_parameters_witness :
  handleFunctionCall exampleParse abcController "f" (jsonText [("a", "1")])
    = throw ("Missing required parameters (needed " +:+ dquote +:+ "a, b"
               +:+ dquote +:+ ", got a)")
  ∧ handleFunctionCall exampleParse abcController "f"
      (jsonText [("a", "1"); ("d", "4"); ("b", "2")])
    = throw "Unknown parameter d"
  ∧ handleFunctionCall exampleParse abcController "f"
      (jsonText [("b", "2"); ("a", "1")])
    = Ok "1,2"
  ∧ handleFunctionCall exampleParse abcController "f"
      (jsonText [("c", "3"); ("a", "1"); ("b", "2")])
    = Ok "1,2,3".
Proof.
  destruct (handleFunctionCall_three_parameters exampleParse abcController "f"
              (describe AbcPlugin "f" echoArguments
                 {| fm_name := "f"; fm_description := "example" |})
              "a" "b" "c" "d")
    as (Hmissing & Hunknown & Htwo & Hthree);
    [by vm_compute | reflexivity | by vm_compute | done..|].
  split.
  { rewrite (Hmissing (jsonText [("a", "1")]) (JNumber 1)); reflexivity. }
  split.
  { apply (Hunknown (jsonText [("a", "1"); ("d", "4"); ("b", "2")])
             [("a", JNumber 1); ("d", JNumber 4); ("b", JNumber 2)]
             (JNumber 1) (JNumber 2) (JNumber 4)); [reflexivity|].
    apply perm_skip, perm_swap. }
  split.
  { rewrite (Htwo (jsonText [("b", "2"); ("a", "1")])
               [("b", JNumber 2); ("a", JNumber 1)] (JNumber 1) (JNumber 2));
      [reflexivity | reflexivity | apply perm_swap]. }
  rewrite (Hthree (jsonText [("c", "3"); ("a", "1"); ("b", "2")])
             [("c", JNumber 3); ("a", JNumber 1); ("b", JNumber 2)]
             (JNumber 1) (JNumber 2) (JNumber 3));
    [reflexivity | reflexivity |].
  exact (Permutation_cons_append [("a", JNumber 1); ("b", JNumber 2)]
                                 ("c", JNumber 3)).
Defined.

Lemma getFunctionMessage_empty_result_witness :
  handleFunctionCall exampleParse silentController "silent" (jsonText [])
    = Ok EmptyString
  ∧ ∀ fuel, getFunctionMessage exampleParse exampleStringify charTokens
              fuel silentController "silent" (jsonText []) None = None.
Proof.
  split; [by vm_compute|].
  apply (getFunctionMessage_empty_result exampleParse exampleStringify charTokens
           silentController "silent" (jsonText []) None).
  - by vm_compute.
  - reflexivity.
Defined.

Lemma getFunctionMessageFromMessage_without_call_witness :
  getFunctionMessageFromMessage exampleParse exampleStringify charTokens 0
    (newController None)
    {| role := role_user; content := Some "Hello"; name := None;
       function_call := None |} None
  = Some (Err {| message := "Message does not have a function call" |}).
Proof.
  apply (getFunctionMessageFromMessage_without_call exampleParse
           exampleStringify charTokens 0 (newController None)).
  reflexivity.
Defined.

(** The failures of the dispatch on concrete inputs, as function messages. *)
Example getFunctionMessage_unknown_function :
  getFunctionMessage exampleParse exampleStringify charTokens 0
    (newController None) "nothing" (jsonText []) None
  = Some {| role := role_function; name := Some "nothing";
            content := Some ("{" +:+ dquote +:+ "error" +:+ dquote +:+ ":"
                               +:+ dquote +:+ "Function nothing not found"
                               +:+ dquote +:+ "}");
            function_call := None |}.
Proof. by vm_compute. Qed.

Example getFunctionMessage_date_time :
  getFunctionMessage exampleParse exampleStringify charTokens 1
    (registerFunctions (newController None) SystemPlugin (enabling []))
    "date_time" (jsonText []) None
  = Some {| role := role_function; name := Some "date_time";
            content := Some "Tue Nov 03 2026 09:00:00 GMT+0000";
            function_call := None |}.
Proof. by vm_compute. Qed.

(** ** The conversation and the completion loop *)

Lemma addMessage_resets (c : Controller) (m : Message) :
  messages (addMessage c m) = messages c ++ [m]
  ∧ usage (addMessage c m) = zeroUsage.
Proof. by split. Qed.

Lemma addSystemMessage_resets (c : Controller) (text : string) :
  usage (addSystemMessage c text) = zeroUsage.
Proof. reflexivity. Qed.

Lemma clearMessages_resets (c : Controller) :
  messages (clearMessages c) = [] ∧ usage (clearMessages c) = zeroUsage.
Proof. by split. Qed.

(** The loop appends with [push]: the counters stay as they are. *)
Lemma pushMessage_keeps_usage (c : Controller) (m : Message) :
  messages (pushMessage c m) = messages c ++ [m]
  ∧ usage (pushMessage c m) = usage c.
Proof. by split. Qed.

Section CompletionLoop.

Variable JSON_parse : string → result JsValue.
Variable JSON_stringify : JsValue → string.
Variable isWithinTokenLimit : string → nat → option nat.
Variable createChatCompletion :
  string → list Message → list ChatCompletionFunctions → result Response.

(** However many function messages a run of the loop appends, the counters
    it leaves are those of the response it returns, and the counters it
    found when that response carries none: no round resets them. *)
Lemma nextCompletion_usage (fuel : nat) (c c' : Controller)
    (opt : GetCompletionOptions) (response : Response) :
  nextCompletion JSON_parse JSON_stringify isWithinTokenLimit
    createChatCompletion fuel c opt = Some (c', Ok response) →
  usage c' = default (usage c) (response_usage response).
Proof.
  revert c c' response. induction fuel as [|fuel IH]; intros c c' response;
    simpl; [done|].
  destruct (createChatCompletion _ _ _) as [first|e]; [|done].
  destruct (if callFunctions opt then _ else _) as [call|].
  - destruct (getFunctionMessage _ _ _ _ _ _ _ _) as [m|]; [|done].
    destruct (nextCompletion _ _ _ _ _ _ _) as [[c2 [response'|e]]|] eqn:Hrec;
      [|done..].
    intros [= <- <-]. apply IH in Hrec.
    unfold recordUsage. destruct (response_usage response'); simpl in *; done.
  - intros [= <- <-]. unfold recordUsage.
    by destruct (response_usage first).
Qed.

(** The transcript only grows during a run of the loop. *)
Lemma nextCompletion_messages (fuel : nat) (c c' : Controller)
    (opt : GetCompletionOptions) (outcome : result Response) :
  nextCompletion JSON_parse JSON_stringify isWithinTokenLimit
    createChatCompletion fuel c opt = Some (c', outcome) →
  ∃ appended, messages c' = messages c ++ appended
              ∧ Forall (λ m, role m = role_function) appended.
Proof.
  revert c c' outcome. induction fuel as [|fuel IH]; intros c c' outcome;
    simpl; [done|].
  destruct (createChatCompletion _ _ _) as [first|e].
  2:{ intros [= <- <-]. exists []. by rewrite app_nil_r. }
  destruct (if callFunctions opt then _ else _) as [call|].
  - destruct (getFunctionMessage _ _ _ _ _ _ _ _) as [m|] eqn:Hm; [|done].
    apply getFunctionMessage_shape in Hm as [text ->].
    destruct (nextCompletion _ _ _ _ _ _ _) as [[c2 inner]|] eqn:Hrec; [|done].
    apply IH in Hrec as (appended & Heq & Hall). simpl in Heq.
    assert (messages c2 = messages c ++
              {| role := role_function; name := Some (fc_name call);
                 content := Some text; function_call := None |} :: appended)
      as Hc2 by (by rewrite Heq, <- app_assoc).
    assert (Forall (λ m, role m = role_function)
              ({| role := role_function; name := Some (fc_name call);
                  content := Some text; function_call := None |} :: appended))
      as Hall' by (by constructor).
    destruct inner as [response'|e]; intros [= <- <-];
      (eexists; split; [|exact Hall']).
    + unfold recordUsage. destruct (response_usage response'); exact Hc2.
    + exact Hc2.
  - intros [= <- <-]. exists []. split; [|done].
    rewrite app_nil_r. unfold recordUsage. by destruct (response_usage first).
Qed.

End CompletionLoop.

(** C6, on the code. A controller holds the counters of an earlier
    completion. [getNextCompletion] with [callFunctions] dispatches the call
    the service asks for and appends the function message; the final response
    carries no counters. The message is in the transcript and the counters
    are the old ones, not zero. *)
Theorem completion_loop_appends_without_reset :
  ∃ c' response,
    getNextCompletion exampleParse exampleStringify charTokens scriptedService
      2 midConversation
      {| partial_model := None; partial_callFunctions := Some true |}
    = Some (c', Ok response)
    ∧ messages c' =
      messages midConversation ++
      [{| role := role_function; name := Some "date_time";
          content := Some "Tue Nov 03 2026 09:00:00 GMT+0000";
          function_call := None |}]
    ∧ usage c' = {| prompt_tokens := 10; completion_tokens := 5;
                    total_tokens := 15 |}
    ∧ usage c' ≠ zeroUsage.
Proof.
  eexists _, _. split; [by vm_compute|]. simpl. by repeat split.
Qed.

(** * Further properties of the controller *)

(** ** Registration *)

Lemma registerEach_is_Some (plugin : Plugin) (ns : option string)
    (props : list (string * Callable)) (registry : gmap string ChatFunctionData)
    (k : string) :
  is_Some (registerEach plugin ns props registry !! k) ↔
  is_Some (registry !! k) ∨
  ∃ key method md, (key, method) ∈ props ∧ functionMeta plugin !! key = Some md
                   ∧ k = namespaced ns (fm_name md).
Proof.
  revert registry. induction props as [|[key method] props IH]; intros registry;
    simpl.
  - split; [auto|]. intros [H|(key & method & md & Hin & _)]; [done|].
    by apply elem_of_nil in Hin.
  - destruct (functionMeta plugin !! key) as [md|] eqn:Hmd; rewrite IH.
    + rewrite lookup_insert. split.
      * intros [Hk|(key' & method' & md' & Hin & Hmd' & ->)].
        -- case_decide as Hname; [|by left].
           right. exists key, method, md. split; [by left | done].
        -- right. exists key', method', md'. split; [by right | done].
      * intros [Hk|(key' & method' & md' & Hin & Hmd' & ->)].
        -- left. case_decide; [by eexists | done].
        -- apply elem_of_cons in Hin as [[= -> ->]|Hin].
           ++ left. rewrite Hmd in Hmd'. injection Hmd' as <-.
              case_decide; [by eexists | done].
           ++ right. exists key', method', md'. done.
    + split.
      * intros [Hk|(key' & method' & md' & Hin & Hmd' & ->)]; [by left|].
        right. exists key', method', md'. split; [by right | done].
      * intros [Hk|(key' & method' & md' & Hin & Hmd' & ->)]; [by left|].
        apply elem_of_cons in Hin as [[= -> ->]|Hin]; [congruence|].
        right. exists key', method', md'. done.
Qed.

(** X1. After [registerFunctions] a name is registered exactly when it was
    registered before or it is the (namespaced) function name of a decorated
    member of the plugin's prototype. Nothing is taken out of the registry,
    and a member without [chat_function] metadata, such as the constructor,
    registers nothing. *)
Theorem registerFunctions_registered_names (c : Controller) (plugin : Plugin)
    (opts : RegisterFunctionsOptions) (k : string) :
  is_Some (registeredFunctionsMap (registerFunctions c plugin opts) !! k) ↔
  is_Some (registeredFunctionsMap c !! k) ∨
  ∃ key method md,
    (key, method) ∈ prototype plugin ∧ functionMeta plugin !! key = Some md
    ∧ k = namespaced (namespace opts) (fm_name md).
Proof. rewrite registerFunctions_registered. apply registerEach_is_Some. Qed.




Lemma append_length (s1 s2 : string) :
  String.length (s1 +:+ s2) = String.length s1 + String.length s2.
Proof.
  induction s1 as [|ch s1 IH]; [reflexivity|].
  change (S (String.length (s1 +:+ s2)) = S (String.length s1 + String.length s2)).
  by rewrite IH.
Qed.

Lemma namespaced_differs (ns n : string) :
  ns ≠ EmptyString → namespaced (Some ns) n ≠ n.
Proof.
  intros Hns Heq. unfold namespaced in Heq. case_decide; [done|].
  apply (f_equal String.length) in Heq. rewrite !append_length in Heq.
  simpl in Heq. lia.
Qed.

(** X3. With a namespace [ns] the function [f] of the plugin is registered,
    enabled and listed under ["ns.f"]; the registration adds nothing under
    the bare name: if [f] was not enabled before, it is not listed. *)
Theorem registerFunctions_namespace (c : Controller) (plugin : Plugin)
    (ns f key : string) (method : Callable) (md : FunctionMetadata) :
  ns ≠ EmptyString →
  (key, method) ∈ prototype plugin →
  functionMeta plugin !! key = Some md → fm_name md = f →
  f ∉ enabledFunctions c →
  (ns +:+ "." +:+ f) ∈ fn_name <$>
    getRegisteredFunctions
      (registerFunctions c plugin {| namespace := Some ns; enable := [f] |})
  ∧ f ∉ fn_name <$>
      getRegisteredFunctions
        (registerFunctions c plugin {| namespace := Some ns; enable := [f] |}).
Proof.
  intros Hns Hin Hmd Hname Hnot.
  assert (namespaced (Some ns) f = ns +:+ "." +:+ f) as Hnamespaced.
  { unfold namespaced. by case_decide. }
  assert (enabledFunctions
            (registerFunctions c plugin {| namespace := Some ns; enable := [f] |})
          = enabledFunctions c ++ [ns +:+ "." +:+ f]) as Henabled.
  { rewrite registerFunctions_enabled.
    change (enabledFunctions c ++ [namespaced (Some ns) f]
            = enabledFunctions c ++ [ns +:+ "." +:+ f]).
    by rewrite Hnamespaced. }
  rewrite !getRegisteredFunctions_names, Henabled. split.
  - split; [|set_solver].
    rewrite registerFunctions_registered.
    change (is_Some (registerEach plugin (Some ns) (prototype plugin)
                       (registeredFunctionsMap c) !! (ns +:+ "." +:+ f))).
    rewrite <- Hnamespaced, <- Hname.
    by apply (registerEach_declared plugin (Some ns) _ _ key method).
  - intros [_ Hen]. apply elem_of_app in Hen as [Hen|Hen]; [done|].
    apply list_elem_of_singleton in Hen.
    apply (namespaced_differs ns f Hns). by rewrite Hnamespaced.
Qed.

Lemma registerFunctions_namespace_witness :
  "sys.date_time" ∈ fn_name <$>
    getRegisteredFunctions
      (registerFunctions (newController None) SystemPlugin
         {| namespace := Some "sys"; enable := ["date_time"] |})
  ∧ "date_time" ∉ fn_name <$>
      getRegisteredFunctions
        (registerFunctions (newController None) SystemPlugin
           {| namespace := Some "sys"; enable := ["date_time"] |}).
Proof.
  apply (registerFunctions_namespace (newController None) SystemPlugin
           "sys" "date_time" "dateTime" dateTime
           {| fm_name := "date_time";
              fm_description := "Get the current date and time." |}).
  - discriminate.
  - apply elem_of_cons. right. apply elem_of_cons. by left.
  - reflexivity.
  - reflexivity.
  - apply not_elem_of_nil.
Defined.

Lemma registerEach_empty_namespace (plugin : Plugin)
    (props : list (string * Callable)) (registry : gmap string ChatFunctionData) :
  registerEach plugin (Some EmptyString) props registry
  = registerEach plugin None props registry.
Proof.
  revert registry. induction props as [|[key method] props IH]; intros registry;
    simpl; [done|].
  destruct (functionMeta plugin !! key); by rewrite IH.
Qed.

(** X4. The empty namespace is no namespace: registering with
    [namespace: ''] gives the controller that registering without a
    namespace gives. *)
Theorem registerFunctions_empty_namespace (c : Controller) (plugin : Plugin)
    (names : list string) :
  registerFunctions c plugin {| namespace := Some EmptyString; enable := names |}
  = registerFunctions c plugin {| namespace := None; enable := names |}.
Proof.
  unfold registerFunctions. simpl. by rewrite registerEach_empty_namespace.
Qed.

(** X5. What the model is shown after a registration: a name is listed by
    [getRegisteredFunctions] exactly when it was registered before or is
    declared by the plugin, and was enabled before or is one of the
    (namespaced) names of the [enable] option. *)
Theorem registerFunctions_visible (c : Controller) (plugin : Plugin)
    (opts : RegisterFunctionsOptions) (n : string) :
  n ∈ fn_name <$> getRegisteredFunctions (registerFunctions c plugin opts) ↔
  (is_Some (registeredFunctionsMap c !! n) ∨
   ∃ key method md,
     (key, method) ∈ prototype plugin ∧ functionMeta plugin !! key = Some md
     ∧ n = namespaced (namespace opts) (fm_name md))
  ∧ (n ∈ enabledFunctions c ∨ n ∈ namespaced (namespace opts) <$> enable opts).
Proof.
  rewrite getRegisteredFunctions_names, registerFunctions_registered,
    registerEach_is_Some, registerFunctions_enabled, elem_of_app.
  done.
Qed.

(** ** Descriptors and schemas *)

(** X6. The parameters of a descriptor are the longest run of parameter
    metadata that starts at position 0: position [j] is recorded exactly when
    every position up to [j] is decorated, so a parameter decorated after an
    undecorated one is dropped. *)
Theorem describe_contiguous (plugin : Plugin) (key : string) (method : Callable)
    (md : FunctionMetadata) (j : nat) (p : ParameterMetadata) :
  parameterData (describe plugin key method md) !! j = Some p ↔
  parameterMeta plugin !! (key, j) = Some p
  ∧ ∀ i, i < j → is_Some (parameterMeta plugin !! (key, i)).
Proof.
  cbn [describe parameterData].
  set (meta := parameterMeta plugin).
  set (scanned := scanParameters meta key (size meta) 0).
  assert (∀ i, i < length scanned → scanned !! i = meta !! (key, i)) as Hscan.
  { intros i Hi. unfold scanned in *.
    by rewrite (scanParameters_lookup meta key (size meta) 0 i). }
  pose proof (scanParameters_complete meta key) as Hgap. fold scanned in Hgap.
  split.
  - intros Hj. assert (j < length scanned) as Hlt by (by eapply lookup_lt_Some).
    split; [by rewrite <- Hscan|].
    intros i Hi. rewrite <- Hscan by lia. apply lookup_lt_is_Some. lia.
  - intros [Hj Hbelow].
    destruct (decide (j < length scanned)) as [Hlt|Hge]; [by rewrite Hscan|].
    exfalso. destruct (decide (length scanned = j)) as [Heq|Hne].
    + rewrite Heq in Hgap. congruence.
    + destruct (Hbelow (length scanned)) as [q Hq]; [lia|]. congruence.
Qed.






(** ** The dispatcher, in general *)

Lemma array_set_lookup_ne {A : Type} (arr : list (option A)) (pos p : nat)
    (v w : A) :
  p ≠ pos →
  array_set arr pos v !! p = Some (Some w) ↔ arr !! p = Some (Some w).
Proof.
  intros Hne. unfold array_set. case_decide as Hpos.
  - by rewrite list_lookup_insert_ne.
  - destruct (decide (p < length arr)) as [Hp|Hp].
    + by rewrite lookup_app_l.
    + rewrite lookup_app_r by lia.
      rewrite (lookup_ge_None_2 arr p) by lia.
      destruct (decide (p < pos)) as [Hlt|Hge].
      * rewrite lookup_app_l by (rewrite length_replicate; lia).
        rewrite lookup_replicate_2 by lia. split; intros [=].
      * rewrite lookup_app_r by (rewrite length_replicate; lia).
        rewrite length_replicate.
        rewrite lookup_ge_None_2 by (simpl; lia). split; intros [=].
Qed.

(** The array the loop builds: a slot holds a value exactly when a property
    of the payload has this position, or the slot held it before and no
    property targets it; the array reaches up to the largest position. *)
Lemma placeArguments_slots (index : gmap string nat)
    (props : list (string * JsValue)) (argsArray placed : list (option JsValue)) :
  NoDup ((λ k, index !! k) <$> props.*1) →
  placeArguments index props argsArray = Ok placed →
  (∀ p v, placed !! p = Some (Some v) ↔
          (∃ k, (k, v) ∈ props ∧ index !! k = Some p)
          ∨ (argsArray !! p = Some (Some v)
             ∧ ∀ k, k ∈ props.*1 → index !! k ≠ Some p))
  ∧ (∀ p, p < length placed ↔
          p < length argsArray
          ∨ ∃ k q, k ∈ props.*1 ∧ index !! k = Some q ∧ p ≤ q).
Proof.
  revert argsArray. induction props as [|[key value] props IH];
    intros argsArray Hnd Hplaced; simpl in *.
  - injection Hplaced as <-. split.
    + intros p v. split; [intros Hp; right; split; [done|] | ].
      * intros k Hk. by apply elem_of_nil in Hk.
      * intros [(k & Hk & _)|[Hp _]]; [by apply elem_of_nil in Hk | done].
    + intros p. split; [auto|].
      intros [Hp|(k & q & Hk & _)]; [done | by apply elem_of_nil in Hk].
  - apply NoDup_cons in Hnd as [Hfresh Hnd].
    destruct (index !! key) as [pos|] eqn:Hpos; [|done].
    destruct (IH _ Hnd Hplaced) as [Hslots Hlen]. clear IH.
    assert (∀ k, k ∈ props.*1 → index !! k ≠ Some pos) as Hfree.
    { intros k Hk Heq. apply Hfresh. apply list_elem_of_fmap. eauto. }
    split.
    + intros p v. rewrite Hslots. clear Hslots Hlen. split.
      * intros [(k & Hk & Hkp)|[Hp Hnone]].
        { left. exists k. split; [by right | done]. }
        destruct (decide (p = pos)) as [->|Hne].
        -- rewrite array_set_lookup in Hp. injection Hp as <-.
           left. exists key. split; [by left | done].
        -- apply array_set_lookup_ne in Hp; [|done].
           right. split; [done|].
           intros k [->|Hk]%elem_of_cons; [congruence | by apply Hnone].
      * intros [(k & Hk & Hkp)|[Hp Hnone]].
        -- apply elem_of_cons in Hk as [[= -> ->]|Hk].
           ++ right. rewrite Hpos in Hkp. injection Hkp as <-.
              split; [apply array_set_lookup | done].
           ++ left. eauto.
        -- right. assert (p ≠ pos) as Hne.
           { intros ->. apply (Hnone key); [by left | done]. }
           split; [by apply array_set_lookup_ne|].
           intros k Hk. apply Hnone. by right.
    + intros p. rewrite Hlen, array_set_length. clear Hslots Hlen. split.
      * intros [Hp|(k & q & Hk & Hkq & Hle)].
        -- destruct (decide (p < length argsArray)); [by left|].
           right. exists key, pos. split; [by left|]. split; [done | lia].
        -- right. exists k, q. split; [by right | done].
      * intros [Hp|(k & q & Hk & Hkq & Hle)]; [left; lia|].
        apply elem_of_cons in Hk as [->|Hk].
        -- left. rewrite Hpos in Hkq. injection Hkq as <-. lia.
        -- right. eauto.
Qed.

Section DispatcherInGeneral.

Variable JSON_parse : string → result JsValue.

(** X9. A payload object whose keys all have a position, no two of them the
    same one, and which has every required name, reaches the callable, and
    the argument array is determined by the declared positions: slot [p]
    holds the value of the property declared at [p], any other slot up to
    the largest supplied position is a hole ([undefined]), and the array
    ends there. The order of the properties in the payload does not
    matter. *)
Theorem handleFunctionCall_places_by_position (c : Controller)
    (name args : string) (funcData : ChatFunctionData)
    (props : list (string * JsValue)) :
  registeredFunctionsMap c !! name = Some funcData →
  JSON_parse args = Ok (JObject props) →
  parameterRequired funcData ⊆ props.*1 →
  Forall (λ k, is_Some (parameterIndex funcData !! k)) (props.*1) →
  NoDup ((λ k, parameterIndex funcData !! k) <$> props.*1) →
  ∃ placed,
    handleFunctionCall JSON_parse c name args = func funcData placed
    ∧ (∀ p v, placed !! p = Some (Some v) ↔
              ∃ k, (k, v) ∈ props ∧ parameterIndex funcData !! k = Some p)
    ∧ (∀ p, p < length placed ↔
            ∃ k q, k ∈ props.*1 ∧ parameterIndex funcData !! k = Some q
                   ∧ p ≤ q).
Proof.
  intros Hname Hparse Hreq Hknown Hnd.
  destruct (placeArguments_known (parameterIndex funcData) props [])
    as (placed & Hplaced & _).
  { intros k Hk. rewrite Forall_forall in Hknown. by apply Hknown. }
  exists placed. split.
  - apply (handleFunctionCall_callee JSON_parse c name args funcData props);
      try done.
    apply forallb_forall. intros r Hr%list_elem_of_In.
    apply bool_decide_eq_true. by apply Hreq.
  - destruct (placeArguments_slots _ _ _ _ Hnd Hplaced) as [Hslots Hlen].
    split.
    + intros p v. rewrite Hslots. split; [|by left].
      intros [?|[Hp _]]; [done | by rewrite lookup_nil in Hp].
    + intros p. rewrite Hlen. simpl. split; [|by right].
      intros [?|?]; [lia | done].
Qed.

(** X10. A payload with the single property [k], declared at position [p],
    is passed on as [p] holes followed by the value: the parameters before
    it read as [undefined] in the callable. *)
Theorem handleFunctionCall_leading_holes (c : Controller) (name args : string)
    (funcData : ChatFunctionData) (k : string) (v : JsValue) (p : nat) :
  registeredFunctionsMap c !! name = Some funcData →
  JSON_parse args = Ok (JObject [(k, v)]) →
  (∀ r, r ∈ parameterRequired funcData → r = k) →
  parameterIndex funcData !! k = Some p →
  handleFunctionCall JSON_parse c name args
  = func funcData (replicate p None ++ [Some v]).
Proof.
  intros Hname Hparse Hreq Hk.
  rewrite (handleFunctionCall_object JSON_parse c name args funcData [(k, v)])
    by done.
  assert (forallb (includes ([(k, v)].*1)) (parameterRequired funcData) = true)
    as ->.
  { apply forallb_forall. intros r Hr%list_elem_of_In.
    apply bool_decide_eq_true. rewrite (Hreq r Hr). by left. }
  simpl. rewrite Hk. simpl. unfold array_set.
  case_decide; [simpl in *; lia|].
  simpl. by rewrite Nat.sub_0_r.
Qed.

(** X11. The payload [null] is refused with the [TypeError] of
    [Object.getOwnPropertyNames] or [Object.entries], whether or not the
    function has required parameters. *)
Theorem handleFunctionCall_null (c : Controller) (name args : string)
    (funcData : ChatFunctionData) :
  registeredFunctionsMap c !! name = Some funcData →
  JSON_parse args = Ok JNull →
  handleFunctionCall JSON_parse c name args
  = throw "Cannot convert undefined or null to object".
Proof.
  intros Hname Hparse. unfold handleFunctionCall. rewrite Hname, Hparse.
  simpl. by destruct (parameterRequired funcData).
Qed.

(** X12. A payload that is a number or a boolean has no properties: it is
    dispatched like the empty object. A function without required
    parameters is called without arguments, any other is refused with the
    missing-parameters message that lists nothing as received. *)
Theorem handleFunctionCall_primitive (c : Controller) (name args : string)
    (funcData : ChatFunctionData) (payload : JsValue) :
  registeredFunctionsMap c !! name = Some funcData →
  JSON_parse args = Ok payload →
  (∃ n, payload = JNumber n) ∨ (∃ b, payload = JBool b) →
  handleFunctionCall JSON_parse c name args
  = match parameterRequired funcData with
    | [] => func funcData []
    | _ :: _ => throw (missingRequiredMessage (parameterRequired funcData) [])
    end.
Proof.
  intros Hname Hparse Hprim. unfold handleFunctionCall.
  rewrite Hname, Hparse. simpl.
  destruct Hprim as [[n ->]|[b ->]];
    by destruct (parameterRequired funcData).
Qed.

(** X13. A name that is not registered: it is never listed, even when it is
    enabled; its dispatch is refused before the arguments are looked at; and
    as a function message the refusal is the content, no fuel being
    needed. *)
Theorem unregistered_function (JSON_stringify : JsValue → string)
    (isWithinTokenLimit : string → nat → option nat) (c : Controller)
    (name : string) :
  registeredFunctionsMap c !! name = None →
  (name ∉ fn_name <$> getRegisteredFunctions c)
  ∧ (∀ args, handleFunctionCall JSON_parse c name args
             = throw ("Function " +:+ name +:+ " not found"))
  ∧ (∀ fuel args options,
       getFunctionMessage JSON_parse JSON_stringify isWithinTokenLimit
         fuel c name args options
       = Some {| role := role_function; name := Some name;
                 content :=
                   Some (JSON_stringify
                           (JObject [("error",
                                      JString ("Function " +:+ name
                                                 +:+ " not found"))]));
                 function_call := None |}).
Proof.
  intros Hname. split.
  { rewrite getRegisteredFunctions_names. intros [[data Hdata] _]. congruence. }
  split; [intros args; by apply handleFunctionCall_not_found|].
  intros fuel args options.
  by rewrite (getFunctionMessage_failure JSON_parse JSON_stringify
                isWithinTokenLimit fuel c name args options
                {| message := "Function " +:+ name +:+ " not found" |})
    by (by apply handleFunctionCall_not_found).
Qed.

End DispatcherInGeneral.

Lemma handleFunctionCall_places_by_position_witness :
  ∃ placed,
    handleFunctionCall exampleParse abcController "f"
      (jsonText [("c", "3"); ("a", "1"); ("b", "2")])
    = echoArguments placed
    ∧ placed !! 0 = Some (Some (JNumber 1))
    ∧ placed !! 2 = Some (Some (JNumber 3))
    ∧ length placed = 3.
Proof.
  destruct (handleFunctionCall_places_by_position exampleParse abcController
              "f" (jsonText [("c", "3"); ("a", "1"); ("b", "2")])
              (describe AbcPlugin "f" echoArguments
                 {| fm_name := "f"; fm_description := "example" |})
              [("c", JNumber 3); ("a", JNumber 1); ("b", JNumber 2)])
    as (placed & Hcall & Hslots & Hlen).
  - by vm_compute.
  - reflexivity.
  - compute_done.
  - compute_done.
  - compute_done.
  - exists placed. split; [exact Hcall|].
    split; [apply Hslots; exists "a"; split; [|by vm_compute]|].
    { apply elem_of_cons. right. apply elem_of_cons. by left. }
    split; [apply Hslots; exists "c"; split; [|by vm_compute]|].
    { apply elem_of_cons. by left. }
    assert (2 < length placed) as Hlow.
    { apply Hlen. exists "c", 2. split; [by left|]. split; [by vm_compute | lia]. }
    assert (¬ 3 < length placed) as Hhigh.
    { intros (k & q & Hk & Hq & Hle)%Hlen.
      repeat (apply elem_of_cons in Hk as [->|Hk]; [vm_compute in Hq; simplify_eq; lia|]).
      by apply elem_of_nil in Hk. }
    lia.
Defined.

Lemma handleFunctionCall_leading_holes_witness :
  handleFunctionCall
    (tableParse [(jsonText [("c", "3")], JObject [("c", JNumber 3)])])
    (registerFunctions (newController None)
       {| prototype := [("f", echoArguments)];
          functionMeta := {[ "f" := {| fm_name := "f";
                                       fm_description := "example" |} ]};
          parameterMeta := {[ ("f", 0) := named "a" None;
                              ("f", 1) := named "b" None;
                              ("f", 2) := named "c" None ]} |}
       (enabling []))
    "f" (jsonText [("c", "3")])
  = Ok "undefined,undefined,3".
Proof.
  rewrite (handleFunctionCall_leading_holes _ _ "f" (jsonText [("c", "3")])
             (describe
                {| prototype := [("f", echoArguments)];
                   functionMeta := {[ "f" := {| fm_name := "f";
                                                fm_description := "example" |} ]};
                   parameterMeta := {[ ("f", 0) := named "a" None;
                                       ("f", 1) := named "b" None;
                                       ("f", 2) := named "c" None ]} |}
                "f" echoArguments
                {| fm_name := "f"; fm_description := "example" |})
             "c" (JNumber 3) 2).
  - reflexivity.
  - by vm_compute.
  - reflexivity.
  - intros r Hr. vm_compute in Hr. by apply elem_of_nil in Hr.
  - by vm_compute.
Defined.

Lemma handleFunctionCall_null_witness :
  handleFunctionCall exampleParse abcController "f" "null"
  = throw "Cannot convert undefined or null to object".
Proof.
  apply (handleFunctionCall_null exampleParse abcController "f" "null"
           (describe AbcPlugin "f" echoArguments
              {| fm_name := "f"; fm_description := "example" |})).
  - by vm_compute.
  - reflexivity.
Defined.

Lemma handleFunctionCall_primitive_witness :
  handleFunctionCall (tableParse [("5", JNumber 5)]) systemController
    "date_time" "5"
  = Ok "Tue Nov 03 2026 09:00:00 GMT+0000".
Proof.
  rewrite (handleFunctionCall_primitive (tableParse [("5", JNumber 5)])
             systemController "date_time" "5"
             (describe SystemPlugin "dateTime" dateTime
                {| fm_name := "date_time";
                   fm_description := "Get the current date and time." |})
             (JNumber 5)).
  - reflexivity.
  - by vm_compute.
  - reflexivity.
  - left. by exists 5%Z.
Defined.

Lemma unregistered_function_witness :
  handleFunctionCall exampleParse (newController None) "nothing" "not json"
  = throw "Function nothing not found".
Proof.
  destruct (unregistered_function exampleParse exampleStringify charTokens
              (newController None) "nothing")
    as (_ & Hcall & _); [reflexivity|].
  apply Hcall.
Defined.

(** ** Functions declared with the decorators *)

Lemma describe_one_decorated (plugin target : Plugin) (d : ParameterDecl)
    (key : string) (method : Callable) (md : FunctionMetadata) :
  parameterMeta plugin = parameterMeta (ChatParameter d key 0 target) →
  (∀ i, parameterMeta target !! (key, i) = None) →
  parameterData (describe plugin key method md)
  = [{| pm_description := pd_description d; pm_type := pd_type d;
        pm_required := pd_required d; pm_name := key |}].
Proof.
  intros Hmeta Hnone. cbn [describe parameterData]. rewrite Hmeta. simpl.
  rewrite map_size_insert_None by apply Hnone.
  cbn [scanParameters]. rewrite lookup_insert_eq. f_equal.
  destruct (size (parameterMeta target)); [done|]. cbn [scanParameters].
  rewrite lookup_insert_ne by congruence. by rewrite Hnone.
Qed.

Lemma describe_two_decorated (plugin target : Plugin) (d0 d1 : ParameterDecl)
    (key : string) (method : Callable) (md : FunctionMetadata) :
  parameterMeta plugin
  = parameterMeta (ChatParameter d0 key 0 (ChatParameter d1 key 1 target)) →
  (∀ i, parameterMeta target !! (key, i) = None) →
  parameterData (describe plugin key method md)
  = [{| pm_description := pd_description d0; pm_type := pd_type d0;
        pm_required := pd_required d0; pm_name := key |};
     {| pm_description := pd_description d1; pm_type := pd_type d1;
        pm_required := pd_required d1; pm_name := key |}].
Proof.
  intros Hmeta Hnone. cbn [describe parameterData]. rewrite Hmeta. simpl.
  rewrite map_size_insert_None
    by (rewrite lookup_insert_ne by congruence; apply Hnone).
  rewrite map_size_insert_None by apply Hnone.
  cbn [scanParameters]. rewrite lookup_insert_eq. f_equal.
  rewrite lookup_insert_ne by congruence. rewrite lookup_insert_eq. f_equal.
  destruct (size (parameterMeta target)); [done|]. cbn [scanParameters].
  rewrite !lookup_insert_ne by congruence. by rewrite Hnone.
Qed.

Section DecoratedFunctions.

Variable JSON_parse : string → result JsValue.

(** X14. A method with one decorated, required parameter is registered with
    a parameter that bears the name of the method. The dispatch accepts the
    value under that name and passes it on as the first argument; a payload
    that gives it under any other name, the name of the parameter in the
    source included, is refused as missing the required parameter. *)
Theorem decorated_parameter_is_named_after_method (c : Controller)
    (plugin target : Plugin) (d : ParameterDecl) (key n : string)
    (method : Callable) (md : FunctionMetadata) :
  parameterMeta plugin = parameterMeta (ChatParameter d key 0 target) →
  (∀ i, parameterMeta target !! (key, i) = None) →
  pd_required d = Some true →
  registeredFunctionsMap c !! n = Some (describe plugin key method md) →
  (∀ args v,
     JSON_parse args = Ok (JObject [(key, v)]) →
     handleFunctionCall JSON_parse c n args = method [Some v])
  ∧ (∀ args k v,
       k ≠ key → JSON_parse args = Ok (JObject [(k, v)]) →
       handleFunctionCall JSON_parse c n args
       = throw (missingRequiredMessage [key] [k])).
Proof.
  intros Hmeta Hnone Hrequired Hn.
  pose proof (describe_one_decorated plugin target d key method md Hmeta Hnone)
    as Hdata.
  assert (parameterRequired (describe plugin key method md) = [key]) as Hreq.
  { change (requiredOf (parameterData (describe plugin key method md)) = [key]).
    rewrite Hdata. unfold requiredOf. rewrite filter_cons_True; [done|].
    simpl. by rewrite Hrequired. }
  assert (parameterIndex (describe plugin key method md) !! key = Some 0)
    as Hindex.
  { change (indexFrom 0 (parameterData (describe plugin key method md)) ∅
              !! key = Some 0).
    rewrite Hdata. simpl. apply lookup_insert_eq. }
  assert (func (describe plugin key method md) = method) as Hfunc
    by reflexivity.
  clear Hdata. remember (describe plugin key method md) as data eqn:Hd.
  clear Hd. split.
  - intros args v Hparse.
    rewrite (handleFunctionCall_object JSON_parse c n args data [(key, v)])
      by done.
    rewrite Hreq. simpl. unfold includes.
    rewrite bool_decide_eq_true_2 by (by left). simpl.
    rewrite Hindex, Hfunc. reflexivity.
  - intros args k v Hk Hparse.
    rewrite (handleFunctionCall_missing JSON_parse c n args data [(k, v)] key);
      try done.
    + by rewrite Hreq.
    + rewrite Hreq. by left.
    + simpl. intros Hin. apply list_elem_of_singleton in Hin. congruence.
Qed.

(** X15. A method with two decorated parameters is registered with two
    parameters of one name, the name of the method, and that name has
    position 1. The dispatch accepts a value under that name only and hands
    it to the second parameter: the first one is [undefined] in every
    call. *)
Theorem decorated_first_parameter_is_never_supplied (c : Controller)
    (plugin target : Plugin) (d0 d1 : ParameterDecl) (key n : string)
    (method : Callable) (md : FunctionMetadata) :
  parameterMeta plugin
  = parameterMeta (ChatParameter d0 key 0 (ChatParameter d1 key 1 target)) →
  (∀ i, parameterMeta target !! (key, i) = None) →
  registeredFunctionsMap c !! n = Some (describe plugin key method md) →
  (∀ args v,
     JSON_parse args = Ok (JObject [(key, v)]) →
     handleFunctionCall JSON_parse c n args = method [None; Some v])
  ∧ (∀ args k v,
       k ≠ key → JSON_parse args = Ok (JObject [(k, v)]) →
       ∃ e, handleFunctionCall JSON_parse c n args = Err e).
Proof.
  intros Hmeta Hnone Hn.
  pose proof (describe_two_decorated plugin target d0 d1 key method md
                Hmeta Hnone) as Hdata.
  assert (∀ r, r ∈ parameterRequired (describe plugin key method md) → r = key)
    as Hreq.
  { change (∀ r, r ∈ requiredOf (parameterData (describe plugin key method md))
                 → r = key).
    rewrite Hdata. unfold requiredOf. intros r (p & -> & Hp)%list_elem_of_fmap.
    apply list_elem_of_filter in Hp as [_ Hp].
    apply elem_of_cons in Hp as [->|Hp]; [done|].
    by apply list_elem_of_singleton in Hp as ->. }
  assert (∀ k, parameterIndex (describe plugin key method md) !! k
               = if decide (k = key) then Some 1 else None) as Hindex.
  { intros k.
    change (indexFrom 0 (parameterData (describe plugin key method md)) ∅ !! k
            = if decide (k = key) then Some 1 else None).
    rewrite Hdata. simpl. rewrite lookup_insert.
    case_decide as Hk; [by rewrite decide_True|].
    rewrite decide_False by congruence.
    rewrite lookup_insert_ne by done. apply lookup_empty. }
  assert (func (describe plugin key method md) = method) as Hfunc
    by reflexivity.
  clear Hdata. remember (describe plugin key method md) as data eqn:Hd.
  clear Hd. split.
  - intros args v Hparse.
    rewrite (handleFunctionCall_object JSON_parse c n args data [(key, v)])
      by done.
    assert (forallb (includes ([(key, v)].*1)) (parameterRequired data) = true)
      as ->.
    { apply forallb_forall. intros r Hr%list_elem_of_In.
      apply bool_decide_eq_true. rewrite (Hreq r Hr). by left. }
    simpl. rewrite Hindex, decide_True, Hfunc by done. reflexivity.
  - intros args k v Hk Hparse.
    rewrite (handleFunctionCall_object JSON_parse c n args data [(k, v)])
      by done.
    destruct (forallb _ _); [|by eexists].
    simpl. rewrite Hindex, decide_False by done. by eexists.
Qed.

End DecoratedFunctions.

Lemma decorated_parameter_is_named_after_method_witness :
  handleFunctionCall
    (tableParse [(jsonText [("url", "1")], JObject [("url", JNumber 1)])])
    systemController "fetch" (jsonText [("url", "1")])
  = throw (missingRequiredMessage ["chatFetch"] ["url"]).
Proof.
  destruct (decorated_parameter_is_named_after_method
              (tableParse [(jsonText [("url", "1")], JObject [("url", JNumber 1)])])
              systemController SystemPlugin
              {| prototype := [("constructor", noop); ("dateTime", dateTime);
                               ("chatFetch", chatFetch)];
                 functionMeta := ∅; parameterMeta := ∅ |}
              {| pd_description := "The URL to fetch"; pd_type := type_string;
                 pd_required := Some true |}
              "chatFetch" "fetch" chatFetch
              {| fm_name := "fetch";
                 fm_description := "Fetch a URL and return raw text" |})
    as [_ Hother].
  - reflexivity.
  - intros i. apply lookup_empty.
  - reflexivity.
  - by vm_compute.
  - apply (Hother _ "url" (JNumber 1)); [discriminate | reflexivity].
Defined.

Lemma decorated_first_parameter_is_never_supplied_witness :
  handleFunctionCall
    (tableParse [(jsonText [("addNumbers", "2")],
                  JObject [("addNumbers", JNumber 2)])])
    (registerFunctions (newController None) AdderPlugin (enabling ["add"]))
    "add" (jsonText [("addNumbers", "2")])
  = addNumbers [None; Some (JNumber 2)].
Proof.
  destruct (decorated_first_parameter_is_never_supplied
              (tableParse [(jsonText [("addNumbers", "2")],
                            JObject [("addNumbers", JNumber 2)])])
              (registerFunctions (newController None) AdderPlugin
                                 (enabling ["add"]))
              AdderPlugin
              {| prototype := [("constructor", noop); ("addNumbers", addNumbers)];
                 functionMeta := ∅; parameterMeta := ∅ |}
              {| pd_description := "The first number"; pd_type := type_string;
                 pd_required := Some true |}
              {| pd_description := "The second number"; pd_type := type_string;
                 pd_required := None |}
              "addNumbers" "add" addNumbers
              {| fm_name := "add"; fm_description := "Add two numbers" |})
    as [Hcall _].
  - reflexivity.
  - intros i. apply lookup_empty.
  - by vm_compute.
  - apply (Hcall _ (JNumber 2)). reflexivity.
Defined.

(** ** Enabling and disabling, in general *)

Lemma enableFunction_membership (c : Controller) (n x : string) :
  x ∈ enabledFunctions (enableFunction c n) ↔ x ∈ enabledFunctions c.
Proof.
  destruct (decide (n ∈ enabledFunctions c)) as [Hin|Hnot].
  - rewrite enableFunction_present by done. rewrite elem_of_app.
    split; [|by left].
    intros [?|Hx]; [done|]. by apply list_elem_of_singleton in Hx as ->.
  - by rewrite enableFunction_absent.
Qed.

(** X16. [enableFunctions] never changes what the model is shown: the names
    that are enabled and the list [getRegisteredFunctions] returns are the
    same before and after, for every list of names. *)
Theorem enableFunctions_shows_nothing_new (c : Controller)
    (names : list string) :
  (∀ x, x ∈ enabledFunctions (enableFunctions c names) ↔ x ∈ enabledFunctions c)
  ∧ getRegisteredFunctions (enableFunctions c names) = getRegisteredFunctions c.
Proof.
  unfold enableFunctions. revert c.
  induction names as [|n names IH]; intros c; simpl; [done|].
  destruct (IH (enableFunction c n)) as [Hmem Hlist]. split.
  - intros x. by rewrite Hmem, enableFunction_membership.
  - rewrite Hlist. unfold getRegisteredFunctions.
    rewrite enableFunction_registered.
    apply list_filter_iff. intros f. unfold includes.
    rewrite !bool_decide_eq_true. apply enableFunction_membership.
Qed.

Lemma indexOf_middle (l1 l2 : list string) (n : string) :
  n ∉ l1 → indexOf (l1 ++ n :: l2) n = Z.of_nat (length l1).
Proof.
  induction l1 as [|y l1 IH]; intros Hnot; simpl.
  - by rewrite decide_True.
  - apply not_elem_of_cons in Hnot as [Hne Hnot].
    rewrite decide_False by congruence. rewrite IH by done.
    rewrite decide_False by lia. lia.
Qed.

Lemma disableFunction_middle (c : Controller) (n : string) (l1 l2 : list string) :
  enabledFunctions c = l1 ++ n :: l2 → n ∉ l1 →
  enabledFunctions (disableFunction c n) = l1 ++ l2.
Proof.
  intros Heq Hnot. unfold disableFunction. rewrite Heq.
  rewrite indexOf_middle by done.
  rewrite decide_True by lia. simpl. unfold splice1.
  rewrite Nat2Z.id. apply delete_middle.
Qed.

(** X17. [disableFunction] takes out the first occurrence of the name and
    leaves the other names, and their order, as they are. *)
Theorem disableFunction_removes_first (c : Controller) (n : string)
    (l1 l2 : list string) :
  enabledFunctions c = l1 ++ n :: l2 → n ∉ l1 →
  enabledFunctions (disableFunction c n) = l1 ++ l2
  ∧ registeredFunctionsMap (disableFunction c n) = registeredFunctionsMap c
  ∧ messages (disableFunction c n) = messages c
  ∧ usage (disableFunction c n) = usage c.
Proof.
  intros Heq Hnot. split; [by apply disableFunction_middle|].
  unfold disableFunction. by case_decide.
Qed.

Lemma disableFunction_removes_first_witness :
  enabledFunctions
    (disableFunction
       (registerFunctions (newController None) SystemPlugin
          (enabling ["fetch"; "date_time"; "fetch"]))
       "date_time")
  = ["fetch"; "fetch"].
Proof.
  apply (disableFunction_removes_first
           (registerFunctions (newController None) SystemPlugin
              (enabling ["fetch"; "date_time"; "fetch"]))
           "date_time" ["fetch"] ["fetch"]).
  - reflexivity.
  - intros Hin. apply list_elem_of_singleton in Hin. discriminate.
Defined.

Lemma occurrences_zero (l : list string) (n : string) :
  length (filter (λ x, x = n) l) = 0 ↔ n ∉ l.
Proof.
  induction l as [|y l IH]; simpl.
  - split; [intros _; apply not_elem_of_nil | done].
  - rewrite filter_cons, not_elem_of_cons. destruct (decide (y = n)) as [->|Hne].
    + simpl. split; [lia | intros [Hne _]; by destruct Hne].
    + rewrite IH. split; [by split; [congruence|] | by intros [_ ?]].
Qed.

Lemma filter_others_absent (l : list string) (n : string) :
  n ∉ l → filter (λ x, x ≠ n) l = l.
Proof.
  induction l as [|y l IH]; [done|].
  intros [Hne Hnot]%not_elem_of_cons.
  rewrite filter_cons_True by congruence. by rewrite IH.
Qed.

(** X18. As many [disableFunction] calls as the name has occurrences take
    the name out altogether, and the other names stay in their order. *)
Theorem disableFunctions_removes_all (c : Controller) (n : string) :
  enabledFunctions
    (disableFunctions c
       (replicate (length (filter (λ x, x = n) (enabledFunctions c))) n))
  = filter (λ x, x ≠ n) (enabledFunctions c).
Proof.
  unfold disableFunctions.
  remember (length (filter (λ x, x = n) (enabledFunctions c))) as count
    eqn:Hcount.
  revert c Hcount. induction count as [|count IH]; intros c Hcount; simpl.
  - symmetry in Hcount. apply occurrences_zero in Hcount.
    by rewrite filter_others_absent.
  - assert (n ∈ enabledFunctions c) as Hin.
    { destruct (decide (n ∈ enabledFunctions c)) as [?|Hnot]; [done|].
      apply occurrences_zero in Hnot. lia. }
    apply list_elem_of_split_l in Hin as (l1 & l2 & Heq & Hnot).
    rewrite (IH (disableFunction c n)).
    + rewrite (disableFunction_middle c n l1 l2 Heq Hnot), Heq.
      rewrite !filter_app, filter_cons_False; [done|]. by intros [].
    + rewrite (disableFunction_middle c n l1 l2 Heq Hnot).
      rewrite Heq, filter_app, filter_cons_True, length_app in Hcount by done.
      rewrite filter_app, length_app. simpl in Hcount. lia.
Qed.

(** ** The truncation loop, in general *)

Lemma substring0_prefix (n : nat) (text : string) :
  ∃ rest, text = substring0 n text +:+ rest.
Proof.
  unfold substring0. revert n. induction text as [|ch text IH]; intros [|n].
  - by exists EmptyString.
  - by exists EmptyString.
  - by exists (String ch text).
  - destruct (IH n) as [rest Hrest]. exists rest.
    change (String ch text = String ch (String.substring 0 n text +:+ rest)).
    by rewrite <- Hrest.
Qed.

Lemma truncateStep_prefix (text : string) (budget : nat) :
  ∃ rest, text = truncateStep text budget +:+ rest.
Proof. unfold truncateStep. case_decide; apply substring0_prefix. Qed.

Lemma truncateStep_within (text : string) (budget : nat) :
  String.length (truncateStep text budget) ≤ 4 * budget.
Proof.
  unfold truncateStep. case_decide; rewrite substring0_length; lia.
Qed.

Section TruncationInGeneral.

Variable isWithinTokenLimit : string → nat → option nat.

(** Once the empty text fails the check the loop cannot leave it. *)
Lemma truncateResult_stuck (budget : nat) :
  js_not (isWithinTokenLimit EmptyString budget) = true →
  ∀ fuel, truncateResult isWithinTokenLimit fuel EmptyString budget = None.
Proof.
  intros Hrej fuel. induction fuel as [|fuel IH]; [done|].
  rewrite truncateResult_rejected by done. by rewrite truncateStep_empty.
Qed.

Lemma truncateResult_prefix (fuel : nat) (text out : string) (budget : nat) :
  truncateResult isWithinTokenLimit fuel text budget = Some out →
  ∃ rest, text = out +:+ rest.
Proof.
  revert text. induction fuel as [|fuel IH]; intros text; simpl; [done|].
  destruct (js_not (isWithinTokenLimit text budget)).
  - intros [rest Hrest]%IH.
    destruct (truncateStep_prefix text budget) as [rest' Hrest'].
    exists (rest +:+ rest'). rewrite <- append_assoc. by rewrite <- Hrest.
  - intros [= <-]. exists EmptyString. clear. induction text as [|ch text IH].
    + done.
    + change (String ch text = String ch (text +:+ EmptyString)).
      by rewrite <- IH.
Qed.

(** X19. The loop cuts from the end only: its output is a prefix of the
    text it was given. When the text fails the token check, the output is
    strictly shorter and has at most four characters per token of the
    budget. *)
Theorem truncateResult_keeps_a_prefix (fuel : nat) (text out : string)
    (budget : nat) :
  truncateResult isWithinTokenLimit fuel text budget = Some out →
  (∃ rest, text = out +:+ rest)
  ∧ (js_not (isWithinTokenLimit text budget) = true →
     String.length out < String.length text
     ∧ String.length out ≤ 4 * budget).
Proof.
  intros Hout. split; [exact (truncateResult_prefix fuel text out budget Hout)|].
  intros Hrej. destruct fuel as [|fuel]; [done|].
  rewrite truncateResult_rejected in Hout by done.
  assert (text ≠ EmptyString) as Hne.
  { intros ->. rewrite truncateStep_empty in Hout.
    by rewrite truncateResult_stuck in Hout. }
  apply truncateResult_prefix in Hout as [rest Hrest].
  apply (f_equal String.length) in Hrest. rewrite append_length in Hrest.
  pose proof (truncateStep_shorter text budget Hne).
  pose proof (truncateStep_within text budget).
  lia.
Qed.

Lemma truncateResult_within_length (fuel : nat) (text out : string)
    (budget : nat) :
  truncateResult isWithinTokenLimit fuel text budget = Some out →
  truncateResult isWithinTokenLimit (S (String.length text)) text budget
  = Some out.
Proof.
  revert text. induction fuel as [|fuel IH]; intros text Hout; [done|].
  destruct (js_not (isWithinTokenLimit text budget)) eqn:Hcheck.
  - rewrite truncateResult_rejected in Hout by done.
    assert (text ≠ EmptyString) as Hne.
    { intros ->. rewrite truncateStep_empty in Hout.
      by rewrite truncateResult_stuck in Hout. }
    pose proof (truncateStep_shorter text budget Hne) as Hshort.
    apply IH in Hout. rewrite truncateResult_rejected by done.
    apply (truncateResult_more_fuel _ _ _ _ _ _ Hout). lia.
  - rewrite truncateResult_accepted in Hout by done.
    by rewrite truncateResult_accepted.
Qed.

(** X20. Whether the loop ends is settled after one check per character of
    the text and one more: it ends with [out] for some number of rounds
    exactly when it does so within [length text + 1] rounds. *)
Theorem truncateResult_ends_early_or_never (text out : string) (budget : nat) :
  (∃ fuel, truncateResult isWithinTokenLimit fuel text budget = Some out) ↔
  truncateResult isWithinTokenLimit (S (String.length text)) text budget
  = Some out.
Proof.
  split; [|by eexists].
  intros [fuel Hout]. by apply (truncateResult_within_length fuel).
Qed.

End TruncationInGeneral.

Lemma truncateResult_keeps_a_prefix_witness :
  truncateResult charTokens 5 "abcdefghijklmnopqrst" 4 = Some "abcd"
  ∧ ∃ rest, "abcdefghijklmnopqrst" = "abcd" +:+ rest.
Proof.
  split; [reflexivity|].
  apply (truncateResult_keeps_a_prefix charTokens 5
           "abcdefghijklmnopqrst" "abcd" 4).
  reflexivity.
Defined.

(** ** The completion loop, in general *)

Section CompletionLoopInGeneral.

Variable JSON_parse : string → result JsValue.
Variable JSON_stringify : JsValue → string.
Variable isWithinTokenLimit : string → nat → option nat.
Variable createChatCompletion :
  string → list Message → list ChatCompletionFunctions → result Response.

Lemma nextCompletion_registry (fuel : nat) (c c' : Controller)
    (opt : GetCompletionOptions) (outcome : result Response) :
  nextCompletion JSON_parse JSON_stringify isWithinTokenLimit
    createChatCompletion fuel c opt = Some (c', outcome) →
  registeredFunctionsMap c' = registeredFunctionsMap c
  ∧ enabledFunctions c' = enabledFunctions c.
Proof.
  revert c c' outcome. induction fuel as [|fuel IH]; intros c c' outcome;
    simpl; [done|].
  destruct (createChatCompletion _ _ _) as [first|e]; [|by intros [= <- <-]].
  destruct (if callFunctions opt then _ else _) as [call|].
  - destruct (getFunctionMessage _ _ _ _ _ _ _ _) as [m|]; [|done].
    destruct (nextCompletion _ _ _ _ _ _ _) as [[c2 inner]|] eqn:Hrec; [|done].
    apply IH in Hrec as [Hreg Hen]. simpl in *.
    destruct inner as [response'|e]; intros [= <- <-]; [|done].
    unfold recordUsage. by destruct (response_usage response').
  - intros [= <- <-]. unfold recordUsage. by destruct (response_usage first).
Qed.

(** X21. The loop has no bound of its own: against a service that answers
    every request with a function call, [getNextCompletion] with
    [callFunctions] returns for no amount of fuel. *)
Theorem getNextCompletion_never_returns (c : Controller)
    (override : option string) :
  (∀ m transcript schemas, ∃ response call,
     createChatCompletion m transcript schemas = Ok response
     ∧ choice_message response ≫= function_call = Some call) →
  ∀ fuel,
    getNextCompletion JSON_parse JSON_stringify isWithinTokenLimit
      createChatCompletion fuel c
      {| partial_model := override; partial_callFunctions := Some true |}
    = None.
Proof.
  intros Hcalls fuel. unfold getNextCompletion. simpl.
  generalize (default (options_model c) override). intros m.
  revert c. induction fuel as [|fuel IH]; intros c; simpl; [done|].
  destruct (Hcalls m (messages c) (getRegisteredFunctions c))
    as (response & call & -> & ->).
  destruct (getFunctionMessage _ _ _ _ _ _ _ _) as [message|]; [|done].
  by rewrite IH.
Qed.

(** X22. Unless [callFunctions] is set, [getNextCompletion] runs no
    function: it makes one request with the transcript as it is and the
    listed schemas, returns the response as it comes, a response that asks
    for a function call included, records its counters and leaves the
    transcript alone. *)
Theorem getNextCompletion_without_callFunctions (fuel : nat) (c : Controller)
    (options : PartialGetCompletionOptions) (response : Response) :
  partial_callFunctions options ≠ Some true →
  createChatCompletion (default (options_model c) (partial_model options))
    (messages c) (getRegisteredFunctions c) = Ok response →
  getNextCompletion JSON_parse JSON_stringify isWithinTokenLimit
    createChatCompletion (S fuel) c options
  = Some (recordUsage c response, Ok response)
  ∧ messages (recordUsage c response) = messages c
  ∧ usage (recordUsage c response) = default (usage c) (response_usage response).
Proof.
  intros Hoff Hresponse. unfold getNextCompletion. simpl. rewrite Hresponse.
  assert (default false (partial_callFunctions options) = false) as ->.
  { by destruct (partial_callFunctions options) as [[]|]. }
  split; [done|]. unfold recordUsage. by destruct (response_usage response).
Qed.

(** X23. A failure of the service during [getCompletionWithMessage] comes
    back as that error, after the message was appended: the transcript has
    the new message and the counters are zero. *)
Theorem getCompletionWithMessage_service_failure (fuel : nat) (c : Controller)
    (message : Message) (options : PartialGetCompletionOptions) (e : Error) :
  createChatCompletion (default (options_model c) (partial_model options))
    (messages c ++ [message]) (getRegisteredFunctions c) = Err e →
  getCompletionWithMessage JSON_parse JSON_stringify isWithinTokenLimit
    createChatCompletion (S fuel) c message options
  = Some (addMessage c message, Err e)
  ∧ messages (addMessage c message) = messages c ++ [message]
  ∧ usage (addMessage c message) = zeroUsage.
Proof.
  intros Hfail. unfold getCompletionWithMessage, getNextCompletion. simpl.
  change (getRegisteredFunctions (addMessage c message))
    with (getRegisteredFunctions c).
  by rewrite Hfail.
Qed.

(** X24. What [getCompletionWithMessage] leaves behind, whenever it comes
    back: the transcript is the old one, the new message, and then function
    messages only, so no reply of the assistant is ever stored; the counters
    are those of the returned response, or zero when it carries none; the
    registry and the enabled names are untouched. *)
Theorem getCompletionWithMessage_effect (fuel : nat) (c c' : Controller)
    (message : Message) (options : PartialGetCompletionOptions)
    (outcome : result Response) :
  getCompletionWithMessage JSON_parse JSON_stringify isWithinTokenLimit
    createChatCompletion fuel c message options = Some (c', outcome) →
  (∃ appended, messages c' = messages c ++ message :: appended
               ∧ Forall (λ m, role m = role_function) appended)
  ∧ (∀ response, outcome = Ok response →
                 usage c' = default zeroUsage (response_usage response))
  ∧ registeredFunctionsMap c' = registeredFunctionsMap c
  ∧ enabledFunctions c' = enabledFunctions c.
Proof.
  unfold getCompletionWithMessage, getNextCompletion. intros Hrun.
  split.
  { apply nextCompletion_messages in Hrun as (appended & Heq & Hall).
    exists appended. split; [|done].
    rewrite Heq. simpl. by rewrite <- app_assoc. }
  split.
  { intros response ->. by apply nextCompletion_usage in Hrun. }
  by apply nextCompletion_registry in Hrun.
Qed.

End CompletionLoopInGeneral.

Lemma getNextCompletion_never_returns_witness :
  getNextCompletion exampleParse exampleStringify charTokens insistentService
    100 systemController
    {| partial_model := None; partial_callFunctions := Some true |}
  = None.
Proof.
  apply (getNextCompletion_never_returns exampleParse exampleStringify
           charTokens insistentService systemController None).
  intros m transcript schemas. by eexists _, _.
Defined.

Lemma getNextCompletion_without_callFunctions_witness :
  getNextCompletion exampleParse exampleStringify charTokens scriptedService
    1 midConversation
    {| partial_model := None; partial_callFunctions := None |}
  = Some (midConversation,
          Ok {| choice_message :=
                  Some {| role := role_assistant; content := None;
                          name := None;
                          function_call :=
                            Some {| fc_name := "date_time";
                                    fc_arguments := "{}" |} |};
                response_usage := None |}).
Proof.
  destruct (getNextCompletion_without_callFunctions exampleParse
              exampleStringify charTokens scriptedService 0 midConversation
              {| partial_model := None; partial_callFunctions := None |}
              {| choice_message :=
                   Some {| role := role_assistant; content := None;
                           name := None;
                           function_call :=
                             Some {| fc_name := "date_time";
                                     fc_arguments := "{}" |} |};
                 response_usage := None |})
    as (Hrun & _ & _).
  - discriminate.
  - reflexivity.
  - exact Hrun.
Defined.

Lemma getCompletionWithMessage_service_failure_witness :
  getCompletionWithMessage exampleParse exampleStringify charTokens
    failingService 1 systemController
    {| role := role_user; content := Some "Hello"; name := None;
       function_call := None |}
    {| partial_model := None; partial_callFunctions := None |}
  = Some (addMessage systemController
            {| role := role_user; content := Some "Hello"; name := None;
               function_call := None |},
          throw "Request failed with status code 401").
Proof.
  destruct (getCompletionWithMessage_service_failure exampleParse
              exampleStringify charTokens failingService 0 systemController
              {| role := role_user; content := Some "Hello"; name := None;
                 function_call := None |}
              {| partial_model := None; partial_callFunctions := None |}
              {| message := "Request failed with status code 401" |})
    as (Hrun & _ & _).
  - reflexivity.
  - exact Hrun.
Defined.

Lemma getCompletionWithMessage_effect_witness :
  ∃ c' response,
    getCompletionWithMessage exampleParse exampleStringify charTokens
      scriptedService 2 midConversation
      {| role := role_user; content := Some "And now?"; name := None;
         function_call := None |}
      {| partial_model := None; partial_callFunctions := Some true |}
    = Some (c', Ok response)
    ∧ usage c' = zeroUsage
    ∧ length (messages c') = 3.
Proof.
  eexists _, _. split; [by vm_compute|].
  destruct (getCompletionWithMessage_effect exampleParse exampleStringify
              charTokens scriptedService 2 midConversation _
              {| role := role_user; content := Some "And now?"; name := None;
                 function_call := None |}
              {| partial_model := None; partial_callFunctions := Some true |}
              _ eq_refl)
    as (_ & Husage & _).
  split; [exact (Husage _ eq_refl) | reflexivity].
Defined.

(** ** Function messages and the schema list, in general *)

Section FunctionMessagesInGeneral.

Variable JSON_parse : string → result JsValue.
Variable JSON_stringify : JsValue → string.
Variable isWithinTokenLimit : string → nat → option nat.


(** X26. For a message that carries a function call,
    [getFunctionMessageFromMessage] throws nothing: what it returns is the
    function message of that call, named after it, and neither the role nor
    the content of the given message plays a part. *)
Theorem getFunctionMessageFromMessage_with_call_returns (fuel : nat)
    (c : Controller) (m : Message) (options : option nat)
    (call : FunctionCall) (outcome : result Message) :
  function_call m = Some call →
  getFunctionMessageFromMessage JSON_parse JSON_stringify isWithinTokenLimit
    fuel c m options = Some outcome →
  ∃ text,
    outcome = Ok {| role := role_function; name := Some (fc_name call);
                    content := Some text; function_call := None |}
    ∧ getFunctionMessage JSON_parse JSON_stringify isWithinTokenLimit
        fuel c (fc_name call) (fc_arguments call) options
      = Some {| role := role_function; name := Some (fc_name call);
                content := Some text; function_call := None |}.
Proof.
  intros Hcall. unfold getFunctionMessageFromMessage. rewrite Hcall.
  destruct (getFunctionMessage _ _ _ _ _ _ _ _) as [reply|] eqn:Hreply; [|done].
  intros [= <-].
  apply getFunctionMessage_shape in Hreply as Hshape.
  destruct Hshape as [text ->]. by exists text.
Qed.

End FunctionMessagesInGeneral.


Lemma getFunctionMessageFromMessage_with_call_returns_witness :
  ∃ text,
    getFunctionMessage exampleParse exampleStringify charTokens 1
      systemController "fetch" "null" None
    = Some {| role := role_function; name := Some "fetch";
              content := Some text; function_call := None |}.
Proof.
  destruct (getFunctionMessageFromMessage_with_call_returns exampleParse
              exampleStringify charTokens 1 systemController
              {| role := role_assistant; content := None; name := None;
                 function_call :=
                   Some {| fc_name := "fetch"; fc_arguments := "null" |} |}
              None {| fc_name := "fetch"; fc_arguments := "null" |}
              _ eq_refl eq_refl)
    as (text & _ & Hreply).
  by exists text.
Defined.

(** X27. [getRegisteredFunctions] lists no name twice, however often the
    name occurs in [enabledFunctions], and each entry is the schema of the
    descriptor that is registered under its name. *)
Theorem getRegisteredFunctions_entries (c : Controller) :
  NoDup (fn_name <$> getRegisteredFunctions c)
  ∧ ∀ f, f ∈ getRegisteredFunctions c →
         ∃ data, registeredFunctionsMap c !! fn_name f = Some data
                 ∧ f = schemaOf (fn_name f, data)
                 ∧ fn_description f = description data
                 ∧ fn_required f
                   = pm_name <$> filter (λ p, truthy_flag (pm_required p) = true)
                                        (parameterData data).
Proof.
  split; [apply getRegisteredFunctions_NoDup|].
  intros f (data & Hdata & Hf & _)%getRegisteredFunctions_schema.
  exists data. split; [done|]. split; [done|]. by rewrite Hf.
Qed.
